(** * Sudoku board component: validation, migration and undo/redo

    A shallow embedding of [src/app/sudoku.js].

    - Numbers are integers ([Z]) where the source counts and indexes, and
      exact rationals ([Q]) where it divides ([getGroup], the number of
      groups of [defaultValidate], the schema version).
    - Strings are JavaScript strings, sequences of UTF-16 code units
      ([string], declared below); arrays are lists, and [None] stands for [undefined].
    - The [Sudoku] component keeps its document in React state.  The cell
      objects of the document are shared between the document, its shallow
      copies and the undo records, and they are mutated in place: the
      embedding has a store of cell objects addressed by location, and rows
      of cells are lists of locations.
    - The functions of the component run in a state monad over the store
      and the next React state.  A JavaScript [TypeError] ([None]) ends the
      running handler and keeps what was written and set before it, as React
      does.
    - [upgrade] works on a document that [JSON.parse] has just built and is
      a function on values. *)

From Stdlib Require Import ZArith QArith Qround Lia String Ascii.
From stdpp Require Import base list strings sorting pretty.

(** ** JavaScript strings *)

(** A string is the sequence of its UTF-16 code units, numbers below
    65536.  From here on [string] is the type of these strings. *)
Record string := JS { units : list N }.

#[local] Instance string_eq_dec : EqDecision string.
Proof. solve_decision. Defined.

(** A literal is the string of its ASCII characters. *)
Definition string_of_bytes (l : list Byte.byte) : string :=
  JS (map (fun b => N_of_ascii (ascii_of_byte b)) l).
Definition bytes_of_string (s : string) : option (list Byte.byte) :=
  if forallb (fun u => (u <? 128)%N) (units s)
  then Some (map (fun u => byte_of_ascii (ascii_of_N u)) (units s))
  else None.

Declare Scope js_scope.
Delimit Scope js_scope with js.
Bind Scope js_scope with string.
String Notation string string_of_bytes bytes_of_string : js_scope.

Local Open Scope js_scope.
Local Open Scope list_scope.
Local Open Scope Z_scope.

(** [s.length]: the number of code units. *)
Definition jslength (s : string) : nat := length (units s).

(** [a + b] *)
Definition jsappend (a b : string) : string := JS (units a ++ units b).

(** The surrogate code units: a high one followed by a low one stands for
    one character outside the Basic Multilingual Plane. *)
Definition isHighSurrogate (u : N) : bool := ((55296 <=? u) && (u <=? 56319))%N.
Definition isLowSurrogate (u : N) : bool := ((56320 <=? u) && (u <=? 57343))%N.

(** The code points of a string in order, as [for (const l of s)] walks
    them: a high surrogate with the low surrogate after it is one code
    point of two code units, every other code unit is a code point of its
    own. *)
Fixpoint codePointsOf (us : list N) : list string :=
  match us with
  | [] => []
  | a :: us' =>
      match us' with
      | b :: us'' =>
          if isHighSurrogate a && isLowSurrogate b
          then JS [a; b] :: codePointsOf us''
          else JS [a] :: codePointsOf us'
      | [] => [JS [a]]
      end
  end.

Definition codePoints (s : string) : list string := codePointsOf (units s).

(** [s.includes(l)]: the code units of [l] occur in [s] one after the
    other. *)
Definition includes (s l : string) : bool :=
  existsb (fun k => bool_decide (take (jslength l) (drop k (units s)) = units l))
          (seq 0 (S (jslength s))).

(** [s.split('').sort().join('')]: the code units in ascending order. *)
Definition sort_chars (s : string) : string := JS (merge_sort N.le (units s)).

(** ** JavaScript arrays *)

(** [a[i]]: [None] stands for [undefined]. *)
Definition at_ {A} (a : list A) (i : Z) : option A :=
  if i <? 0 then None else a !! Z.to_nat i.

(** The relative index of [Array.prototype.slice] and [splice]. *)
Definition rel_index (len k : Z) : Z :=
  if k <? 0 then Z.max (len + k) 0 else Z.min k len.

(** [a.slice(b, e)] *)
Definition slice {A} (a : list A) (b e : Z) : list A :=
  let len := Z.of_nat (length a) in
  let b' := rel_index len b in
  let e' := rel_index len e in
  take (Z.to_nat (e' - b')) (drop (Z.to_nat b') a).

(** [a.splice(i, 1)], the array that is left. *)
Definition splice1 {A} (a : list A) (i : Z) : list A :=
  let start := Z.to_nat (rel_index (Z.of_nat (length a)) i) in
  take start a ++ drop (S start) a.

(** [a.splice(i, 0, x)], the array that is left. *)
Definition splice_in {A} (a : list A) (i : Z) (x : A) : list A :=
  let start := Z.to_nat (rel_index (Z.of_nat (length a)) i) in
  take start a ++ x :: drop start a.

(** [Object.entries(a)] / [a.entries()]: the elements with their indices. *)
Definition entries {A} (a : list A) : list (Z * A) :=
  imap (fun i x => (Z.of_nat i, x)) a.

(** The values [lo, lo+1, ..., hi-1] of a counting [for] loop. *)
Definition range (lo hi : Z) : list Z := seqZ lo (hi - lo).

(** ** Board geometry *)

Definition Math_floor (q : Q) : Q := inject_Z (Qfloor q).

(** [getGroup]: numbers are rationals; [/] is the real division of
    JavaScript, not an integer division. *)
Definition getGroup (r c gHeight gWidth : Z) (dimensions : Z * Z) : Q :=
  let '(height, width) := dimensions in
  let '(numCols, numRows) :=
    (inject_Z width / inject_Z gWidth, inject_Z height / inject_Z gHeight)%Q in
  (Math_floor (inject_Z c / inject_Z gWidth)
   + numCols * Math_floor (inject_Z r / inject_Z gHeight))%Q.

(** All coordinates [(r, c)] of a [height] x [width] board, row by row. *)
Definition boardCells (dimensions : Z * Z) : list (Z * Z) :=
  let '(height, width) := dimensions in
  r ← range 0 height; c ← range 0 width; [(r, c)].

(** The cells of the board that [getGroup] puts in group [g]. *)
Definition groupMembers (gHeight gWidth : Z) (dimensions : Z * Z) (g : Z) : list (Z * Z) :=
  filter (fun rc => Qeq_bool (getGroup rc.1 rc.2 gHeight gWidth dimensions) (inject_Z g) = true)
         (boardCells dimensions).

(** ** The cell-value edit: which letter to show *)

(** [diff]: the loop walks the code points of [newVal]; the lengths and
    [newVal[newVal.length - 1]] count code units.  [None] is the
    [undefined] that [newVal[newVal.length - 1]] gives on the empty
    string. *)
Definition diff (oldVal newVal : string) : option string :=
  let fallback := (fun u => JS [u]) <$> last (units newVal) in
  if (jslength oldVal <=? jslength newVal)%nat then
    match List.find (fun l => negb (includes oldVal l)) (codePoints newVal) with
    | Some l => Some l
    | None => fallback
    end
  else fallback.

(** ** The document *)

(** A cell object lives in the store; the document and the undo records
    refer to it by its location. *)
Abbreviation loc := nat (only parsing).

(** [error] is [true] or [undefined] in the source; [false] stands for
    [undefined]. *)
Record Cell := mkCell {
  val : string;
  guess : Z;
  group : Z;
  color : option string;
  error : bool
}.

Record Guess := mkGuess {
  guess_color : string;
  isSmall : bool;
  editable : bool
}.

Record Group := mkGroup { group_color : string }.

(** [SUDOKU_TYPES] *)
Inductive SudokuType :=
  | T12x12 | T16x16 | TSamurai | TSquiggly | TX | TDefault | TOther.

#[local] Instance SudokuType_eq_dec : EqDecision SudokuType.
Proof. solve_decision. Defined.

(** The rows of [cells] are arrays of cell objects; the arrays are never
    changed in place after they are built, the cell objects are. *)
Record Config := mkConfig {
  version : Q;
  dimensions : Z * Z;
  cells : list (list loc);
  groups : list Group;
  guesses : list Guess;
  type : SudokuType;
  elapsed : Z
}.

Definition set_cells (c : Config) (cs : list (list loc)) : Config :=
  mkConfig (version c) (dimensions c) cs (groups c) (guesses c) (type c) (elapsed c).
Definition set_groups (c : Config) (gs : list Group) : Config :=
  mkConfig (version c) (dimensions c) (cells c) gs (guesses c) (type c) (elapsed c).

Definition set_val (v : string) (c : Cell) : Cell :=
  mkCell v (guess c) (group c) (color c) (error c).
Definition set_guess (g : Z) (c : Cell) : Cell :=
  mkCell (val c) g (group c) (color c) (error c).
Definition set_group (g : Z) (c : Cell) : Cell :=
  mkCell (val c) (guess c) g (color c) (error c).
Definition set_error (e : bool) (c : Cell) : Cell :=
  mkCell (val c) (guess c) (group c) (color c) e.

(** [UNDO.FULL] and [UNDO.DIFF] records. *)
Inductive UndoRecord :=
  | UndoFull (prevCells newCells : list (list loc))
  | UndoDiff (coords : Z * Z) (prevVal newVal : string).

(** [VALIDATION_MSGS] *)
Inductive ValidationMsg := MsgValid | MsgError.

(** The state of the component: the React state variables, the store of
    cell objects, and the completion alerts raised so far (each with the
    elapsed time it shows). *)
Record State := mkState {
  config : Config;
  store : list Cell;
  currGuess : Z;
  validationState : option ValidationMsg;
  timerStarted : bool;
  undoHistory : list UndoRecord;
  undoIndex : Z;
  alerts : list Z
}.

(** ** Handlers: state, and [TypeError] that keeps the writes made so far *)

Definition M (A : Type) : Type := State -> State * option A.

Definition ret {A} (a : A) : M A := fun s => (s, Some a).
Definition throw {A} : M A := fun s => (s, None).
Definition bind {A B} (m : M A) (f : A -> M B) : M B :=
  fun s => match m s with
           | (s', Some a) => f a s'
           | (s', None) => (s', None)
           end.

Notation "x <- m ;; k" := (bind m (fun x => k))
  (at level 100, m at next level, right associativity).
Notation "m ;; k" := (bind m (fun _ => k))
  (at level 100, right associativity).

(** A value that must not be [undefined]. *)
Definition defined {A} (o : option A) : M A :=
  match o with Some a => ret a | None => throw end.

Fixpoint forM_ {A} (f : A -> M unit) (l : list A) : M unit :=
  match l with
  | [] => ret tt
  | x :: l' => f x ;; forM_ f l'
  end.

Fixpoint mapM {A B} (f : A -> M B) (l : list A) : M (list B) :=
  match l with
  | [] => ret []
  | x :: l' => y <- f x ;; ys <- mapM f l' ;; ret (y :: ys)
  end.

Fixpoint foldM {A B} (f : B -> A -> M B) (b : B) (l : list A) : M B :=
  match l with
  | [] => ret b
  | x :: l' => b' <- f b x ;; foldM f b' l'
  end.

(** [a.find(p)]: the first element that satisfies [p], else [undefined]. *)
Fixpoint findM {A} (p : option A -> M bool) (l : list (option A)) : M (option A) :=
  match l with
  | [] => ret None
  | x :: l' => b <- p x ;; if b then ret x else findM p l'
  end.

(** The state with another store. *)
Definition with_store (s : State) (st : list Cell) : State :=
  mkState (config s) st (currGuess s) (validationState s) (timerStarted s)
          (undoHistory s) (undoIndex s) (alerts s).

(** Reading a field of a cell; a cell that is [undefined] throws. *)
Definition readCell {A} (f : Cell -> A) (cell : option loc) : M A :=
  fun s => (s, l ← cell; c ← store s !! l; Some (f c)).

(** Assigning a field of a cell in place. *)
Definition writeCell (f : Cell -> Cell) (cell : option loc) : M unit :=
  fun s => match l ← cell; c ← store s !! l; Some (l, c) with
           | Some (l, c) => (with_store s (<[l := f c]> (store s)), Some tt)
           | None => (s, None)
           end.

(** A new cell object. *)
Definition allocCell (c : Cell) : M loc :=
  fun s => (with_store s (store s ++ [c]), Some (length (store s))).

Definition setConfig (c : Config) : M unit :=
  fun s => (mkState c (store s) (currGuess s) (validationState s)
              (timerStarted s) (undoHistory s) (undoIndex s) (alerts s), Some tt).
Definition setValidationState (v : ValidationMsg) : M unit :=
  fun s => (mkState (config s) (store s) (currGuess s) (Some v)
              (timerStarted s) (undoHistory s) (undoIndex s) (alerts s), Some tt).
Definition setTimerStarted (b : bool) : M unit :=
  fun s => (mkState (config s) (store s) (currGuess s) (validationState s)
              b (undoHistory s) (undoIndex s) (alerts s), Some tt).
Definition setUndoHistory (h : list UndoRecord) : M unit :=
  fun s => (mkState (config s) (store s) (currGuess s) (validationState s)
              (timerStarted s) h (undoIndex s) (alerts s), Some tt).
Definition setUndoIndex (i : Z) : M unit :=
  fun s => (mkState (config s) (store s) (currGuess s) (validationState s)
              (timerStarted s) (undoHistory s) i (alerts s), Some tt).
(** [setTimeout(() => alert(... displayTime(elapsed)), 250)] *)
Definition alertCompleted (t : Z) : M unit :=
  fun s => (mkState (config s) (store s) (currGuess s) (validationState s)
              (timerStarted s) (undoHistory s) (undoIndex s) (alerts s ++ [t]), Some tt).

(** [config.cells[r][c]]: throws when row [r] is [undefined]. *)
Definition cellAt (cs : list (list loc)) (r c : Z) : M (option loc) :=
  row <- defined (at_ cs r) ;; ret (at_ row c).

(** [JSON.parse(JSON.stringify(cells))]: new cell objects with the same
    fields. *)
Definition jsonCopy (cs : list (list loc)) : M (list (list loc)) :=
  mapM (mapM (fun l => c <- readCell id (Some l) ;; allocCell c)) cs.

(** ** Validation *)

(** The options of [defaultValidate]; [ops_groups = None] is
    [groups: undefined]. *)
Record Ops := mkOps {
  firstSquare : Z * Z;
  sideLength : Z;
  ops_groups : option (Z * Z)
}.

Section Validate.
(** [newConfig], the copy of the document that [validate] works on. *)
Variable newConfig : Config.

Definition isSmallGuess (cell : option loc) : M bool :=
  g <- readCell guess cell ;;
  if g =? -1 then ret false
  else style <- defined (at_ (guesses newConfig) g) ;; ret (isSmall style).

(** The members of the [Set] that [allUnique] builds: a value, or the
    index of an empty entry. *)
Definition setKey (i : nat) (v : string) : string + nat :=
  if decide (v = "") then inr i else inl v.

Definition allUnique (cellList : list (option loc)) : M bool :=
  list <- mapM (fun cell =>
                  small <- isSmallGuess cell ;;
                  if small then ret "" else readCell val cell) cellList ;;
  let isUnique :=
    (length (remove_dups (imap setKey list)) =? length list)%nat in
  (if negb isUnique
   then forM_ (fun cell => writeCell (set_error true) cell) cellList
   else ret tt) ;;
  ret isUnique.

(** [cellGroups[g].push(cell)] *)
Definition pushAt (cellGroups : list (list (option loc))) (g : Z) (cell : option loc)
  : M (list (list (option loc))) :=
  grp <- defined (at_ cellGroups g) ;;
  ret (<[Z.to_nat g := grp ++ [cell]]> cellGroups).

Definition defaultValidate (ops : Ops) : M (bool * bool) :=
  let sideLength := sideLength ops in
  let groups_ := ops_groups ops in
  let '(firstRow, firstCol) := firstSquare ops in
  (* validate all rows *)
  let rowSlice := slice (cells newConfig) firstRow (firstRow + sideLength) in
  vf <- foldM (fun (vf : bool * bool) fullRow =>
                 let '(isValid, isFilled) := vf in
                 let row := Some <$> slice fullRow firstCol (firstCol + sideLength) in
                 u <- allUnique row ;;
                 let isValid := u && isValid in
                 isFilled <- (if isFilled
                              then found <- findM (fun cell =>
                                                     v <- readCell val cell ;;
                                                     if decide (v = "") then ret true
                                                     else isSmallGuess cell) row ;;
                                   ret (bool_decide (found = None))
                              else ret false) ;;
                 ret (isValid, isFilled))
              (true, true) rowSlice ;;
  let '(isValid, isFilled) := vf in
  (* validate all cols *)
  isValid <- foldM (fun (isValid : bool) c =>
                      let col := (fun row : list loc => at_ row c) <$> rowSlice in
                      u <- allUnique col ;;
                      ret (u && isValid))
                   isValid (range firstCol (firstCol + sideLength)) ;;
  (* validate all groups *)
  cellGroups <-
    match groups_ with
    | Some (groupHeight, groupWidth) =>
        let numGroups :=
          ((inject_Z (firstRow + sideLength) / inject_Z groupHeight)
           * (inject_Z (firstCol + sideLength) / inject_Z groupWidth))%Q in
        let cellGroups := replicate (Z.to_nat (Qceiling numGroups)) [] in
        foldM (fun cellGroups (e : Z * list loc) =>
                 let '(r, fullRow) := e in
                 let row := slice fullRow firstCol (firstCol + sideLength) in
                 foldM (fun cellGroups (e : Z * loc) =>
                          let '(c, cell) := e in
                          let g := Qfloor ((Math_floor (inject_Z r / inject_Z groupHeight)
                                            * inject_Z sideLength + inject_Z c)
                                           / inject_Z groupWidth)%Q in
                          pushAt cellGroups g (Some cell))
                       cellGroups (entries row))
              cellGroups (entries rowSlice)
    | None =>
        let cellGroups := (fun _ => []) <$> groups newConfig in
        foldM (fun cellGroups row =>
                 foldM (fun cellGroups cell =>
                          g <- readCell group (Some cell) ;;
                          pushAt cellGroups g (Some cell))
                       cellGroups row)
              cellGroups (cells newConfig)
    end ;;
  isValid <- foldM (fun (isValid : bool) grp =>
                      u <- allUnique grp ;;
                      ret (u && isValid))
                   isValid cellGroups ;;
  ret (isValid, isFilled).

Definition defaultOps : Ops := mkOps (0, 0) 9 (Some (3, 3)).

Definition typeOps : Ops :=
  match type newConfig with
  | T12x12 => mkOps (0, 0) 12 (Some (3, 4))
  | T16x16 => mkOps (0, 0) 16 (Some (4, 4))
  | TSquiggly => mkOps (0, 0) 9 None
  | _ => defaultOps
  end.

(** clear errors at start of validate *)
Definition clearErrors : M unit :=
  forM_ (fun row => forM_ (fun cell => writeCell (set_error false) (Some cell)) row)
        (cells newConfig).

(** The checks of [validate], after the errors are cleared. *)
Definition validateChecks : M unit :=
  let ops := typeOps in
  vf <- defaultValidate ops ;;
  let '(isValid, isFilled) := vf in
  isValid <- (if decide (type newConfig = TX) then
                xs <- foldM (fun (xs : list (option loc) * list (option loc)) i =>
                               let '(x1, x2) := xs in
                               c1 <- cellAt (cells newConfig) i i ;;
                               c2 <- cellAt (cells newConfig) i (8 - i) ;;
                               ret (x1 ++ [c1], x2 ++ [c2]))
                            ([], []) (range 0 9) ;;
                let '(x1, x2) := xs in
                x1Valid <- allUnique x1 ;;
                x2Valid <- allUnique x2 ;;
                ret (isValid && x1Valid && x2Valid)
              else ret isValid) ;;
  vf <- (if decide (type newConfig = TSamurai) then
           (* above validate checks the first board, validate the other 4 *)
           foldM (fun (vf : bool * bool) initialCell =>
                    let '(isValid, isFilled) := vf in
                    sv <- defaultValidate (mkOps initialCell (sideLength ops) (ops_groups ops)) ;;
                    let '(sectionValid, sectionFilled) := sv in
                    ret (sectionValid && isValid, sectionFilled && isFilled))
                 (isValid, isFilled) [(0, 12); (6, 6); (12, 0); (12, 12)]
         else ret (isValid, isFilled)) ;;
  let '(isValid, isFilled) := vf in
  (if isValid then
     setValidationState MsgValid ;;
     if isFilled then
       alertCompleted (elapsed newConfig) ;;
       setTimerStarted false
     else ret tt
   else setValidationState MsgError) ;;
  setConfig newConfig.

(** The body of [validate] below its [type === 'other'] guard. *)
Definition validateBody : M unit :=
  clearErrors ;; validateChecks.
End Validate.

(** ** The component: one render's functions

    The functions of [Sudoku] are closures over the state of the render they
    were created in: they read [config], [currGuess], [undoHistory] and
    [undoIndex] of that render, whatever has been set since. *)
Section Sudoku.
Variable render : State.

Definition validate (c : option Config) : M unit :=
  let newConfig := match c with Some c => c | None => config render end in
  if decide (type newConfig = TOther) then ret tt
  else validateBody newConfig.

Definition cellOrDiv (r c : Z) : M string :=
  cell <- cellAt (cells (config render)) r c ;;
  guessIndex <- readCell guess cell ;;
  readOnly <- (if negb (guessIndex =? -1) && negb (currGuess render =? guessIndex)
               then style <- defined (at_ (guesses (config render)) guessIndex) ;;
                    ret (negb (editable style))
               else ret false) ;;
  ret (if readOnly : bool then "div" else "cell").

(** [document.getElementById(`${cellOrDiv(r, c)}_${r}_${c}`).focus()]:
    the element of a cell of the board exists; giving it the focus
    changes nothing in the state. *)
Definition focusCell (r c : Z) : M unit :=
  _ <- cellOrDiv r c ;; ret tt.

Definition addUndoFull (prevCells newCells : list (list loc)) : M unit :=
  let newUndo :=
    slice (undoHistory render) 0 (undoIndex render + 1)
    ++ [UndoFull prevCells newCells] in
  setUndoHistory newUndo ;;
  setUndoIndex (undoIndex render + 1).

Definition addUndoDiff (coords : Z * Z) (prevVal newVal : string) : M unit :=
  let newUndo :=
    slice (undoHistory render) 0 (undoIndex render + 1)
    ++ [UndoDiff coords prevVal newVal] in
  setUndoHistory newUndo ;;
  setUndoIndex (undoIndex render + 1).

Definition resetUndo : M unit :=
  setUndoHistory [] ;; setUndoIndex (-1).

(** If a cell has this guess, set val to '' *)
Definition clearGuess (i : Z) : M unit :=
  let newConfig := config render in
  prevCells <- jsonCopy (cells (config render)) ;;
  forM_ (fun row =>
           forM_ (fun cell =>
                    g <- readCell guess (Some cell) ;;
                    if g =? i then
                      writeCell (set_val "") (Some cell) ;;
                      writeCell (set_guess (-1)) (Some cell)
                    else ret tt) row)
        (cells newConfig) ;;
  addUndoFull prevCells (cells newConfig) ;;
  setConfig newConfig ;;
  validate (Some newConfig).

Definition cellValCallback (r c : Z) (v : string) : M unit :=
  (if negb (timerStarted render) && (currGuess render =? 1)
      && negb (bool_decide (type (config render) = TOther))
   then setTimerStarted true else ret tt) ;;
  cell <- cellAt (cells (config render)) r c ;;
  prevVal <- readCell val cell ;;
  let newConfig := config render in
  let guess := if decide (v = "") then -1 else currGuess render in
  isSmall <- (if guess =? -1 then ret false
              else style <- defined (at_ (guesses newConfig) guess) ;;
                   ret (isSmall style)) ;;
  let newVal :=
    if (1 <? jslength v)%nat && negb isSmall
    then match diff prevVal v with Some l => l | None => "" end
    else if isSmall then sort_chars v else v in
  writeCell (set_val newVal) cell ;;
  writeCell (set_guess guess) cell ;;
  setConfig newConfig ;;
  stored <- readCell val cell ;;
  addUndoDiff (r, c) prevVal stored ;;
  validate (Some newConfig).

Definition deleteGroup (i : Z) : M unit :=
  let newConfig := set_groups (config render) (splice1 (groups (config render)) i) in
  forM_ (fun row =>
           forM_ (fun cell =>
                    (* Set cells with group i to i - 1, and decrement groups above i *)
                    g <- readCell group (Some cell) ;;
                    if i <=? g
                    then writeCell (set_group (Z.max 0 (g - 1))) (Some cell)
                    else ret tt) row)
        (cells newConfig) ;;
  setConfig newConfig.

Definition undo : M unit :=
  if -1 <? undoIndex render then
    currUndo <- defined (at_ (undoHistory render) (undoIndex render)) ;;
    match currUndo with
    | UndoFull prevCells _ =>
        let newConfig := set_cells (config render) prevCells in
        setConfig newConfig ;;
        validate (Some newConfig)
    | UndoDiff (r, c) prevVal _ =>
        let prevCells := cells (config render) in
        cell <- cellAt prevCells r c ;;
        writeCell (set_val prevVal) cell ;;
        let newConfig := set_cells (config render) prevCells in
        setConfig newConfig ;;
        validate (Some newConfig) ;;
        focusCell r c
    end ;;
    setUndoIndex (undoIndex render - 1)
  else ret tt.

Definition redo : M unit :=
  if undoIndex render <? Z.of_nat (length (undoHistory render)) - 1 then
    let newUndoIndex := undoIndex render + 1 in
    setUndoIndex newUndoIndex ;;
    currUndo <- defined (at_ (undoHistory render) newUndoIndex) ;;
    match currUndo with
    | UndoFull _ newCells =>
        let newConfig := set_cells (config render) newCells in
        setConfig newConfig ;;
        validate (Some newConfig)
    | UndoDiff (r, c) _ newVal =>
        let newCells := cells (config render) in
        cell <- cellAt newCells r c ;;
        writeCell (set_val newVal) cell ;;
        let newConfig := set_cells (config render) newCells in
        setConfig newConfig ;;
        validate (Some newConfig) ;;
        focusCell r c
    end
  else ret tt.
End Sudoku.

(** An event: the handler of the current render runs on the current state. *)
Definition handle (h : State -> M unit) (s : State) : State * option unit := h s s.

(** The state a handler leaves. *)
Definition after (h : State -> M unit) (s : State) : State := (handle h s).1.

(** ** The [Cell] component

    What the component computes from its cell, the board and the current
    guess before it draws the cell. *)

(** [guessIndex]: the guess style that the cell is drawn with, its own or,
    when its guess is -1, the current one. *)
Definition guessIndexOf (currGuess : Z) (cell : Cell) : Z :=
  if negb (guess cell =? -1) then guess cell else currGuess.

(** [isSmall]: whether the cell is drawn as a small guess; [None] is the
    [TypeError] that ends the rendering. *)
Definition cellIsSmall (board : Config) (currGuess : Z) (cell : Cell) : option bool :=
  if negb (guess cell =? -1) then
    style ← at_ (guesses board) (guess cell); Some (isSmall style)
  else if negb (currGuess =? -1) then
    style ← at_ (guesses board) currGuess; Some (isSmall style)
  else Some false.

(** ** Colours in hexadecimal: [rgb2Hex] of [upgrade]

    Numbers are exact integers here; [None] stands for [NaN]. *)

(** What [parseInt] is given in [rgb2Hex]: a string, a number or
    [undefined]. *)
Inductive Value := VString (s : string) | VNumber (n : Z) | VUndefined.

(** A string that has ASCII characters only, from its text. *)
Definition ofText (t : String.string) : string :=
  JS (N_of_ascii <$> list_ascii_of_string t).

(** [String(v)]: an integer is written in decimal digits. *)
Definition toString (v : Value) : string :=
  match v with
  | VString s => s
  | VNumber n => ofText (pretty n)
  | VUndefined => "undefined"
  end.

(** White space and line terminators, which [parseInt] passes over. *)
Definition isWhiteSpace (u : N) : bool :=
  bool_decide (u ∈ [9; 10; 11; 12; 13; 32; 160; 5760; 8192; 8193; 8194; 8195;
                    8196; 8197; 8198; 8199; 8200; 8201; 8202; 8232; 8233; 8239;
                    8287; 12288; 65279]%N).

Fixpoint dropWhile {A} (p : A -> bool) (l : list A) : list A :=
  match l with
  | [] => []
  | x :: l' => if p x then dropWhile p l' else l
  end.

(** The value of a digit or letter as a digit of a number. *)
Definition digitValue (u : N) : option N :=
  if ((48 <=? u) && (u <=? 57))%N then Some (u - 48)%N
  else if ((97 <=? u) && (u <=? 122))%N then Some (u - 87)%N
  else if ((65 <=? u) && (u <=? 90))%N then Some (u - 55)%N
  else None.

(** The digits in base [radix] that a text begins with. *)
Fixpoint digitsOf (radix : N) (us : list N) : list N :=
  match us with
  | [] => []
  | u :: us' =>
      match digitValue u with
      | Some d => if (d <? radix)%N then d :: digitsOf radix us' else []
      | None => []
      end
  end.

(** [parseInt(s)]: white space, a sign, [0x] or [0X] for base 16, and the
    digits that follow; [NaN] when there is no digit. *)
Definition parseInt (s : string) : option Z :=
  let us := dropWhile isWhiteSpace (units s) in
  let '(sign, us) :=
    match us with
    | u :: us' => if (u =? 45)%N then (-1, us')
                  else if (u =? 43)%N then (1, us') else (1, us)
    | [] => (1, us)
    end in
  let '(radix, us) :=
    match us with
    | u :: x :: us' =>
        if (u =? 48)%N && ((x =? 120) || (x =? 88))%N then (16%N, us') else (10%N, us)
    | _ => (10%N, us)
    end in
  let digits := digitsOf radix us in
  if decide (digits = []) then None
  else Some (sign * Z.of_N (foldl (fun acc d => acc * radix + d)%N 0%N digits)).

(** The digits of [n] in base 16, before [acc]. *)
Fixpoint hexDigits (fuel : nat) (n : N) (acc : list N) : list N :=
  match fuel with
  | O => acc
  | S fuel' =>
      if (n =? 0)%N then acc
      else hexDigits fuel' (n / 16)%N
             ((if (n mod 16 <? 10)%N then 48 + n mod 16 else 87 + n mod 16)%N :: acc)
  end.

(** [x.toString(16)] *)
Definition toString16 (x : option Z) : string :=
  match x with
  | None => "NaN"
  | Some n =>
      if n =? 0 then "0"
      else JS ((if n <? 0 then [45%N] else [])
               ++ hexDigits (N.size_nat (Z.abs_N n)) (Z.abs_N n) [])
  end.

Definition isDigit (u : N) : bool := ((48 <=? u) && (u <=? 57))%N.

(** The rest of [us] after the text [p], when [us] begins with it. *)
Definition afterText (p : string) (us : list N) : option (list N) :=
  if bool_decide (take (jslength p) us = units p)
  then Some (drop (jslength p) us) else None.

(** [[\d]{1,3}] and then [rest]: the quantifier is greedy, it takes three
    digits first, then two, then one, until [rest] matches. *)
Definition digitsThen {A} (rest : string -> list N -> option A) (us : list N)
    : option A :=
  let try n :=
    if bool_decide (length (take n us) = n) && forallb isDigit (take n us)
    then rest (JS (take n us)) (drop n us) else None in
  match try 3%nat with
  | Some r => Some r
  | None => match try 2%nat with
            | Some r => Some r
            | None => try 1%nat
            end
  end.

(** [.*\)]: a closing parenthesis, after code units that are no line
    terminators. *)
Fixpoint dotStarParen (us : list N) : bool :=
  match us with
  | [] => false
  | u :: us' =>
      if (u =? 41)%N then true
      else if bool_decide (u ∈ [10; 13; 8232; 8233]%N) then false
      else dotStarParen us'
  end.

(** The match of [/rgb\(([\d]{1,3}), ([\d]{1,3}), ([\d]{1,3}).*\)/]
    at the beginning of [us]: its three captures. *)
Definition matchRgb (us : list N) : option (string * string * string) :=
  us ← afterText "rgb(" us;
  digitsThen (fun r us =>
    us ← afterText ", " us;
    digitsThen (fun g us =>
      us ← afterText ", " us;
      digitsThen (fun b us =>
        if dotStarParen us then Some (r, g, b) else None) us) us) us.

(** [exec] of that regular expression: the first index with a match, and
    the captures. *)
Definition execRgb (rgb : string) : option (Z * (string * string * string)) :=
  head (omap (fun k => (fun m => (Z.of_nat k, m)) <$> matchRgb (drop k (units rgb)))
             (seq 0 (S (jslength rgb)))).

(** [rgb2Hex]: [Object.entries(res)] gives the matched text under "0",
    which the loop passes over ([Number("0")] is 0), then the captures
    "1", "2" and "3", and then the properties "index", "input" and
    "groups" of the match, for which [Number(i)] is [NaN]. *)
Definition rgb2Hex (rgb : string) : option string :=
  match execRgb rgb with
  | Some (index, (r, g, b)) =>
      let res := [VString r; VString g; VString b;
                  VNumber index; VString rgb; VUndefined] in
      Some (foldl (fun hex match_ =>
                     let n := toString16 (parseInt (toString match_)) in
                     jsappend hex (if (jslength n =? 1)%nat then jsappend "0" n else n))
                  "#" res)
  | None => None
  end.

(** ** Migration of a loaded document

    [upgrade] works on the object that [JSON.parse] has just built: no other
    reference to it exists, so the document is a value here.  Fields that an
    old file does not have are optional; [None] stands for [undefined].  An
    [upgrade] that throws is [None]. *)

Record RawCell := mkRawCell {
  raw_val : string;
  raw_guess : option Z;
  raw_isGuess : option bool;
  raw_group : Z;
  raw_cell_color : option string;
  raw_error : bool
}.

Record RawGuess := mkRawGuess {
  raw_guess_color : option string;
  raw_isSmall : bool;
  raw_editable : option bool
}.

Record RawGroup := mkRawGroup { raw_group_color : option string }.

Record RawConfig := mkRawConfig {
  raw_version : option Q;
  raw_dimensions : Z * Z;
  raw_cells : list (list RawCell);
  raw_groups : list RawGroup;
  raw_guesses : option (list RawGuess);
  raw_type : option string;
  raw_elapsed : option Z;
  fileName : option string
}.

Definition CURR_VER : Q := 15 # 10.

(** [x < y] on numbers *)
Definition Qltb (x y : Q) : bool := negb (Qle_bool y x).

Section Upgrade.
(** The steps below are stated for any function [getColor] on colours;
    the one of the source is [getColor] after this section, which puts
    the colour that the browser computes through [rgb2Hex]. *)
Variable getColor : option string -> option string.

(** [config.version || 1.0] *)
Definition versionOf (c : RawConfig) : Q :=
  match raw_version c with
  | Some v => if Qeq_bool v 0 then 1 else v
  | None => 1
  end.

(** convert to current guess style *)
Definition upgrade_1_1 (c : RawConfig) : RawConfig :=
  mkRawConfig (raw_version c) (raw_dimensions c)
    (map (map (fun cell =>
                 mkRawCell (raw_val cell)
                   (Some (if raw_isGuess cell is Some true then 1 else 0))
                   None (raw_group cell) (raw_cell_color cell) (raw_error cell)))
         (raw_cells c))
    (raw_groups c)
    (Some [mkRawGuess (Some "#ffffff") false (Some false);
           mkRawGuess (Some "#ff0000") false (Some true)])
    (raw_type c) (raw_elapsed c) (fileName c).

(** convert all colors to hex *)
Definition upgrade_1_2 (c : RawConfig) : option RawConfig :=
  let groups' :=
    map (fun g => mkRawGroup (getColor (raw_group_color g))) (raw_groups c) in
  gs ← raw_guesses c;
  Some (mkRawConfig (raw_version c) (raw_dimensions c) (raw_cells c) groups'
          (Some (map (fun g => mkRawGuess (getColor (raw_guess_color g))
                                 (raw_isSmall g) (raw_editable g)) gs))
          (raw_type c) (raw_elapsed c) (fileName c)).

(** add type of sudoku, default to Default *)
Definition upgrade_1_3 (c : RawConfig) : RawConfig :=
  mkRawConfig (raw_version c) (raw_dimensions c) (raw_cells c) (raw_groups c)
    (raw_guesses c)
    (match raw_type c with
     | Some t => if decide (t = "") then Some "default" else Some t
     | None => Some "default"
     end)
    (raw_elapsed c) (fileName c).

(** add "editable" field to guesses *)
Definition upgrade_1_4 (c : RawConfig) : option RawConfig :=
  gs ← raw_guesses c;
  Some (mkRawConfig (raw_version c) (raw_dimensions c) (raw_cells c) (raw_groups c)
          (Some (map (fun g => mkRawGuess (raw_guess_color g) (raw_isSmall g)
                                 (match raw_editable g with
                                  | Some e => Some e
                                  | None => Some true
                                  end)) gs))
          (raw_type c) (raw_elapsed c) (fileName c)).

(** add new default guess for small guesses, and the elapsed field *)
Definition upgrade_1_5 (c : RawConfig) : option RawConfig :=
  gs ← raw_guesses c;
  Some (mkRawConfig (raw_version c) (raw_dimensions c)
          (map (map (fun cell =>
                       mkRawCell (raw_val cell)
                         (match raw_guess cell with
                          | Some g => if 2 <=? g then Some (g + 1) else Some g
                          | None => None
                          end)
                         (raw_isGuess cell) (raw_group cell)
                         (raw_cell_color cell) (raw_error cell)))
               (raw_cells c))
          (raw_groups c)
          (Some (splice_in gs 2 (mkRawGuess (Some "#ff0000") true (Some true))))
          (raw_type c) (Some 0) (fileName c)).

Definition upgrade (c : RawConfig) : option RawConfig :=
  let version := versionOf c in
  let c := if Qltb version (11 # 10) then upgrade_1_1 c else c in
  c ← (if Qltb version (12 # 10) then upgrade_1_2 c else Some c);
  let c := if Qltb version (13 # 10) then upgrade_1_3 c else c in
  c ← (if Qltb version (14 # 10) then upgrade_1_4 c else Some c);
  c ← (if Qltb version (15 # 10) then upgrade_1_5 c else Some c);
  Some (mkRawConfig (Some CURR_VER) (raw_dimensions c) (raw_cells c) (raw_groups c)
          (raw_guesses c) (raw_type c) (raw_elapsed c) (fileName c)).
End Upgrade.

(** [getColor] of [upgrade]: [knownColors] is never filled, so every colour
    is given to an element of the page and read back as the browser
    computes it.  [computedColor color] is
    [window.getComputedStyle(d).color] for an element [d] whose
    [style.color] was set to [color]. *)
Definition getColor (computedColor : option string -> string)
    (color : option string) : option string :=
  rgb2Hex (computedColor color).


(** ** Example documents *)

(** What a browser computes for the colours of the example file: white,
    red, and black for any other. *)
Definition standardColor (color : option string) : string :=
  if decide (color = Some "#ffffff") then "rgb(255, 255, 255)"
  else if decide (color = Some "#ff0000") then "rgb(255, 0, 0)"
  else "rgb(0, 0, 0)".

(** A version-1.0 file: cells with the [isGuess] flag, no guesses, no type. *)
Definition legacyDoc : RawConfig :=
  mkRawConfig None (2, 2)
    [[mkRawCell "5" None (Some false) 0 None false;
      mkRawCell "3" None (Some true) 0 None false];
     [mkRawCell "" None (Some false) 0 None false;
      mkRawCell "7" None (Some true) 0 None false]]
    [mkRawGroup (Some "#000000")] None None None (Some "old.json").

(** What [upgrade] makes of it in that browser. *)
Definition legacyDocUpgraded : RawConfig :=
  mkRawConfig (Some CURR_VER) (2, 2)
    [[mkRawCell "5" (Some 0) None 0 None false;
      mkRawCell "3" (Some 1) None 0 None false];
     [mkRawCell "" (Some 0) None 0 None false;
      mkRawCell "7" (Some 1) None 0 None false]]
    [mkRawGroup (Some "#00000000NaNNaN")]
    (Some [mkRawGuess (Some "#ffffff00NaNNaN") false (Some false);
           mkRawGuess (Some "#ff000000NaNNaN") false (Some true);
           mkRawGuess (Some "#ff0000") true (Some true)])
    (Some "default") (Some 0) (Some "old.json").

(** The three guess styles of a new board. *)
Definition defaultGuesses : list Guess :=
  [mkGuess "#ffffff" false false;
   mkGuess "#ff0000" false true;
   mkGuess "#ff0000" true true].

(** The rows of an [h] x [w] board whose cell objects are numbered row by
    row. *)
Definition boardRows (h w : nat) : list (list loc) :=
  map (fun r => seq (r * w) w) (seq 0 h).

(** A 9 x 9 board with 3 x 3 boxes: the values of its cells row by row, all
    of them entered with guess style [g]. *)
Definition board9 (ty : SudokuType) (g : Z) (vals : list string) : State :=
  mkState
    (mkConfig CURR_VER (9, 9) (boardRows 9 9) (replicate 9 (mkGroup "#000000"))
       defaultGuesses ty 0)
    (imap (fun i v =>
             mkCell v (if decide (v = "") then -1 else g)
               (Z.of_nat (i / 27 * 3 + i `mod` 9 / 3)) None false) vals)
    1 None false [] (-1) [].

(** The empty board. *)
Definition emptyBoard (ty : SudokuType) : State :=
  board9 ty 1 (replicate 81 "").

(** A solved board. *)
Definition solvedVals : list string :=
  ["5";"3";"4";"6";"7";"8";"9";"1";"2";
   "6";"7";"2";"1";"9";"5";"3";"4";"8";
   "1";"9";"8";"3";"4";"2";"5";"6";"7";
   "8";"5";"9";"7";"6";"1";"4";"2";"3";
   "4";"2";"6";"8";"5";"3";"7";"9";"1";
   "7";"1";"3";"9";"2";"4";"8";"5";"6";
   "9";"6";"1";"5";"3";"7";"2";"8";"4";
   "2";"8";"7";"4";"1";"9";"6";"3";"5";
   "3";"4";"5";"2";"8";"6";"1";"7";"9"].

(** A board of type Other on which the cell at the top left still carries an
    error flag. *)
Definition staleErrorBoard : State :=
  with_store (emptyBoard TOther)
    (<[0%nat := mkCell "5" 1 0 None true]> (store (emptyBoard TOther))).

(** A 1 x 3 board with five groups; the last cell is in group 4. *)
Definition fiveGroupBoard : State :=
  mkState
    (mkConfig CURR_VER (1, 3) [[0%nat; 1%nat; 2%nat]]
       (replicate 5 (mkGroup "#000000")) defaultGuesses TOther 0)
    [mkCell "" (-1) 0 None false; mkCell "" (-1) 2 None false;
     mkCell "" (-1) 4 None false]
    1 None false [] (-1) [].



(** The board that the Dimensions control makes of a new board for the
    height 2 and the width 2: four empty cells in one group; the type is
    still Default. *)
Definition smallBoard : State :=
  mkState
    (mkConfig CURR_VER (2, 2) (boardRows 2 2) [mkGroup "#000000"]
       defaultGuesses TDefault 0)
    (replicate 4 (mkCell "" (-1) 0 None false))
    1 None false [] (-1) [].

(** A board of type Squiggly after Clear Groups: 9 x 9 empty cells, all of
    them in the one group that is left. *)
Definition oneGroupSquiggly : State :=
  mkState
    (mkConfig CURR_VER (9, 9) (boardRows 9 9) [mkGroup "#000000"]
       defaultGuesses TSquiggly 0)
    (replicate 81 (mkCell "" (-1) 0 None false))
    1 None false [] (-1) [].

(** The character U+1F600, two code units in a string. *)
Definition grin : string := JS [55357%N; 56832%N].

(** ** What the properties talk about *)

(** Two cell objects with the same fields, the error flag apart. *)
Definition same_data (c1 c2 : Cell) : Prop :=
  set_error false c1 = set_error false c2.

(** Two stores with the same cell objects, the error flags apart. *)
Definition data_eq (st1 st2 : list Cell) : Prop := Forall2 same_data st1 st2.

(** The document as it can be observed: the configuration, and the cell
    objects that its [cells] refer to. *)
Definition document (s : State) : Config * list (list (option Cell)) :=
  (config s, map (map (fun l => store s !! l)) (cells (config s))).

(** The cell objects of a document, in order. *)
Definition docLocs (c : Config) : list loc := concat (cells c).

(** The cursor of the undo log is -1 or the index of a record. *)
Definition undo_inv (s : State) : Prop :=
  -1 <= undoIndex s < Z.of_nat (length (undoHistory s)).



(** [n] events in a row with the same handler. *)
Fixpoint repeatedly (h : State -> M unit) (n : nat) (s : State) : State :=
  match n with
  | O => s
  | S n' => repeatedly h n' (after h s)
  end.

(** [det R m]: from two states related by [R], the computation [m] gives
    the same result and leaves states related by [R]. *)
Definition det {A} (R : State -> State -> Prop) (m : M A) : Prop :=
  ∀ s1 s2, R s1 s2 -> (m s1).2 = (m s2).2 ∧ R (m s1).1 (m s2).1.

(** [s] is [s0] with other error flags and other React state, the undo log
    and the current guess apart. *)
Definition errors_apart (s0 s : State) : Prop :=
  data_eq (store s0) (store s)
  ∧ undoHistory s = undoHistory s0
  ∧ undoIndex s = undoIndex s0
  ∧ currGuess s = currGuess s0.

(** One run, seen as two: the state stays [s0] with other error flags. *)
Definition framed (s0 s1 s2 : State) : Prop := s1 = s2 ∧ errors_apart s0 s1.

(** Two states whose stores differ in error flags only, and not at all on
    the cells of [D]. *)
Definition agree (D : loc -> Prop) (s1 s2 : State) : Prop :=
  data_eq (store s1) (store s2)
  ∧ ∀ l, D l -> store s1 !! l = store s2 !! l.

(** What [deleteGroup i] does to a cell. *)
Definition shiftGroup (i : Z) (c : Cell) : Cell :=
  if i <=? group c then set_group (Z.max 0 (group c - 1)) c else c.

(** A computation that leaves the undo log as it is. *)
Definition keeps_log {A} (m : M A) : Prop :=
  ∀ s, undoHistory (m s).1 = undoHistory s ∧ undoIndex (m s).1 = undoIndex s.

(** What [clearGuess i] does to a cell. *)
Definition clearCell (i : Z) (c : Cell) : Cell :=
  if guess c =? i then set_guess (-1) (set_val "" c) else c.

(** The empty board after "5" is typed in its top left cell. *)
Definition editedBoard : State :=
  Eval vm_compute in
    after (fun render => cellValCallback render 0 0 "5") (emptyBoard TDefault).

(** In the words of the specification: the guess style that is active for
    a cell is its own or, for a cell whose guess is -1, the current one; a
    cell whose active style is small is a wildcard. *)
Definition activeGuess (s : State) (cell : Cell) : Z :=
  if guess cell =? -1 then currGuess s else guess cell.

Definition wildcard (c : Config) (s : State) (cell : Cell) : bool :=
  match at_ (guesses c) (activeGuess s cell) with
  | Some style => isSmall style
  | None => false
  end.





(** A computation that leaves the state as it is. *)
Definition reads_only {A} (m : M A) : Prop := ∀ s, (m s).1 = s.

(** A string of characters of the Basic Multilingual Plane: none of its
    code units is a surrogate. *)
Definition bmp (s : string) : Prop :=
  Forall (fun u => isHighSurrogate u = false ∧ isLowSurrogate u = false) (units s).

(** * Properties *)

(** ** Board geometry *)

Section Geometry.
Lemma Math_floor_div (a b : Z) :
  Math_floor (inject_Z a / inject_Z b) = inject_Z (a / b).
Proof. unfold Math_floor. by rewrite <-Zdiv_Qdiv. Qed.

Lemma getGroup_formula r c gH gW h w :
  (getGroup r c gH gW (h, w)
   == inject_Z (c / gW) + (inject_Z w / inject_Z gW) * inject_Z (r / gH))%Q.
Proof. unfold getGroup. rewrite !Math_floor_div. reflexivity. Qed.

Lemma Qdiv_exact (a b : Z) :
  0 < b -> (b | a) -> (inject_Z a / inject_Z b == inject_Z (a / b))%Q.
Proof.
  intros Hb [k ->]. rewrite Z.div_mul by lia.
  rewrite inject_Z_mult. field.
  intros H. unfold Qeq in H. simpl in H. lia.
Qed.

Lemma getGroup_exact r c gH gW h w :
  0 < gW -> (gW | w) ->
  (getGroup r c gH gW (h, w) == inject_Z (c / gW + (w / gW) * (r / gH)))%Q.
Proof.
  intros HgW Hw. rewrite getGroup_formula, (Qdiv_exact w gW) by done.
  by rewrite inject_Z_plus, inject_Z_mult.
Qed.

Lemma filter_none {A} (P : A -> Prop) `{!∀ x, Decision (P x)} (l : list A) :
  Forall (fun x => ¬ P x) l -> filter P l = [].
Proof.
  induction 1 as [|x l Hx _ IH]; [done|].
  by rewrite filter_cons_False.
Qed.

Lemma filter_all {A} (P : A -> Prop) `{!∀ x, Decision (P x)} (l : list A) :
  Forall P l -> filter P l = l.
Proof.
  induction 1 as [|x l Hx _ IH]; [done|].
  rewrite filter_cons_True by done. by f_equal.
Qed.

(** The members of [0 .. h-1] whose quotient by [k] is [a] are the [k]
    values from [a * k] on. *)
Lemma filter_quotient (k n a : Z) :
  0 < k -> 0 <= a < n ->
  filter (fun x => x / k = a) (seqZ 0 (n * k)) = seqZ (a * k) k.
Proof.
  intros Hk Ha.
  assert (0 <= a * k) by (apply Z.mul_nonneg_nonneg; lia).
  assert (0 <= (n - a - 1) * k) by (apply Z.mul_nonneg_nonneg; lia).
  replace (n * k) with (a * k + (k + (n - a - 1) * k)) by ring.
  rewrite seqZ_app, seqZ_app by lia.
  rewrite !filter_app.
  rewrite filter_none, filter_all, filter_none; [by rewrite app_nil_r| | |].
  - apply Forall_forall. intros x Hx%elem_of_seqZ Hq. subst a.
    pose proof (Z.mul_div_le x k Hk).
    pose proof (Z.mul_succ_div_gt x k Hk). nia.
  - apply Forall_forall. intros x Hx%elem_of_seqZ.
    symmetry. apply Z.div_unique with (r := x - a * k); lia.
  - apply Forall_forall. intros x Hx%elem_of_seqZ Hq. subst a.
    pose proof (Z.mul_div_le x k Hk). nia.
Qed.

Lemma filter_ext_in {A} (P Q : A -> Prop) `{!∀ x, Decision (P x)}
    `{!∀ x, Decision (Q x)} (l : list A) :
  (∀ x, x ∈ l -> P x <-> Q x) -> filter P l = filter Q l.
Proof.
  induction l as [|x l IH]; intros Hext; [done|].
  rewrite !filter_cons.
  rewrite IH by (intros y Hy; apply Hext; by right).
  destruct (decide (P x)) as [HP|HP], (decide (Q x)) as [HQ|HQ]; try done.
  - apply Hext in HP; [done|by left].
  - apply Hext in HQ; [done|by left].
Qed.

Lemma length_filter_row {A B} (P : A -> Prop) (Q : B -> Prop)
    `{!∀ x, Decision (P x)} `{!∀ x, Decision (Q x)} (r : A) (cs : list B) :
  length (filter (fun rc : A * B => P rc.1 ∧ Q rc.2) (c ← cs; [(r, c)]))
  = if decide (P r) then length (filter Q cs) else 0%nat.
Proof.
  induction cs as [|c cs IH].
  - by destruct (decide (P r)).
  - rewrite bind_cons, filter_app, length_app, IH.
    rewrite (filter_cons Q). rewrite filter_cons, filter_nil. simpl.
    destruct (decide (P r)), (decide (Q c)); simpl;
      destruct (decide _) as [[]|Hn]; simpl; try done; exfalso; apply Hn; done.
Qed.

Lemma length_filter_board {A B} (P : A -> Prop) (Q : B -> Prop)
    `{!∀ x, Decision (P x)} `{!∀ x, Decision (Q x)} (rs : list A) (cs : list B) :
  length (filter (fun rc : A * B => P rc.1 ∧ Q rc.2) (r ← rs; c ← cs; [(r, c)]))
  = (length (filter P rs) * length (filter Q cs))%nat.
Proof.
  induction rs as [|r rs IH]; [done|].
  rewrite bind_cons, filter_app, length_app, IH, length_filter_row.
  rewrite (filter_cons P). destruct (decide (P r)); simpl; lia.
Qed.

Lemma elem_of_boardCells r c h w :
  (r, c) ∈ boardCells (h, w) <-> (0 <= r < h) ∧ (0 <= c < w).
Proof.
  unfold boardCells, range. rewrite list_elem_of_bind. split.
  - intros (r' & (c' & Hc & Hc')%list_elem_of_bind & Hr'%elem_of_seqZ).
    apply list_elem_of_singleton in Hc. injection Hc as -> ->.
    apply elem_of_seqZ in Hc'. lia.
  - intros [Hr Hc]. exists r. split; [|apply elem_of_seqZ; lia].
    apply list_elem_of_bind. exists c. split; [by apply list_elem_of_singleton|].
    apply elem_of_seqZ; lia.
Qed.

Lemma length_boardCells h w :
  0 <= h -> 0 <= w -> length (boardCells (h, w)) = Z.to_nat (h * w).
Proof.
  intros Hh Hw. unfold boardCells, range.
  pose proof (length_filter_board (fun _ : Z => True) (fun _ : Z => True)
                (seqZ 0 (h - 0)) (seqZ 0 (w - 0))) as H.
  rewrite !filter_all in H by (apply Forall_forall; done).
  rewrite !length_seqZ in H. rewrite H. nia.
Qed.

(** The group of a cell, as an integer, when the tiling is even. *)
Lemma getGroup_members_iff r c g gH gW nr nc :
  0 < gH -> 0 < gW -> 0 <= g < nr * nc ->
  0 <= r < nr * gH -> 0 <= c < nc * gW ->
  Qeq_bool (getGroup r c gH gW (nr * gH, nc * gW)) (inject_Z g) = true
  <-> r / gH = g / nc ∧ c / gW = g `mod` nc.
Proof.
  intros HgH HgW Hg Hr Hc.
  rewrite Qeq_bool_iff, getGroup_exact by (done || by exists nc).
  rewrite inject_Z_injective, Z.div_mul by lia.
  assert (0 <= c / gW < nc) as Hq.
  { split; [apply Z.div_pos; lia|apply Z.div_lt_upper_bound; lia]. }
  assert (0 < nc) as Hnc by lia.
  split.
  - intros <-. split.
    + apply Z.div_unique with (r := c / gW); lia.
    + apply Z.mod_unique with (q := r / gH); lia.
  - intros [-> ->]. pose proof (Z.div_mod g nc). lia.
Qed.
End Geometry.

(** C3: for positive group dimensions [getGroup] is
    floor(c / gWidth) + (width / gWidth) * floor(r / gHeight); and when
    [gHeight] divides [height] and [gWidth] divides [width], it sends every
    cell of the board to one of the (height/gHeight) * (width/gWidth) group
    indices, each of which gets exactly gHeight * gWidth of the
    height * width cells. *)
Theorem getGroup_partitions_board (r c g gHeight gWidth height width : Z) :
  0 < gHeight -> 0 < gWidth ->
  (getGroup r c gHeight gWidth (height, width)
   == inject_Z (c / gWidth)
      + (inject_Z width / inject_Z gWidth) * inject_Z (r / gHeight))%Q
  ∧ ((gHeight | height) -> (gWidth | width) -> 0 <= height -> 0 <= width ->
     let numGroups := (height / gHeight) * (width / gWidth) in
     length (boardCells (height, width)) = Z.to_nat (height * width)
     ∧ ((r, c) ∈ boardCells (height, width) ->
        ∃ k, 0 <= k < numGroups
             ∧ (getGroup r c gHeight gWidth (height, width) == inject_Z k)%Q
             ∧ (r, c) ∈ groupMembers gHeight gWidth (height, width) k)
     ∧ (0 <= g < numGroups ->
        length (groupMembers gHeight gWidth (height, width) g)
        = Z.to_nat (gHeight * gWidth))).
Proof.
  intros HgH HgW. split; [apply getGroup_formula|].
  intros [nr ->] [nc ->] Hh Hw. rewrite !Z.div_mul by lia. cbn zeta.
  assert (0 <= nr) by nia. assert (0 <= nc) by nia.
  split; [by apply length_boardCells|]. split.
  - intros Hrc. pose proof Hrc as [Hr Hc]%elem_of_boardCells.
    assert (0 <= r / gHeight < nr) as Hqr.
    { split; [apply Z.div_pos; lia|apply Z.div_lt_upper_bound; lia]. }
    assert (0 <= c / gWidth < nc) as Hqc.
    { split; [apply Z.div_pos; lia|apply Z.div_lt_upper_bound; lia]. }
    exists (c / gWidth + nc * (r / gHeight)).
    assert (Qeq (getGroup r c gHeight gWidth (nr * gHeight, nc * gWidth))
                (inject_Z (c / gWidth + nc * (r / gHeight)))) as Heq.
    { rewrite getGroup_exact by (done || by exists nc).
      by rewrite Z.div_mul by lia. }
    split; [nia|]. split; [done|].
    unfold groupMembers. apply list_elem_of_filter. split; [|done].
    by apply Qeq_bool_iff.
  - intros Hg. unfold groupMembers.
    rewrite (filter_ext_in _
               (fun rc : Z * Z => rc.1 / gHeight = g / nc ∧ rc.2 / gWidth = g `mod` nc)).
    2:{ intros [r' c'] [Hr' Hc']%elem_of_boardCells.
        by apply getGroup_members_iff. }
    unfold boardCells, range.
    pose proof (length_filter_board (fun x => x / gHeight = g / nc)
                  (fun x => x / gWidth = g `mod` nc)
                  (seqZ 0 (nr * gHeight - 0)) (seqZ 0 (nc * gWidth - 0))) as Hlen.
    cbn beta in Hlen. rewrite Hlen. clear Hlen.
    rewrite !Z.sub_0_r.
    rewrite (filter_quotient gHeight nr (g / nc)), (filter_quotient gWidth nc (g `mod` nc)).
    + rewrite !length_seqZ. nia.
    + done.
    + apply Z.mod_pos_bound. nia.
    + done.
    + split; [apply Z.div_pos; nia|apply Z.div_lt_upper_bound; nia].
Qed.

(** At a 9 x 9 board with 3 x 3 boxes: cell (4, 5) is in box 4, one of 9
    boxes of 9 cells. *)
Lemma getGroup_partitions_board_witness :
  Qeq (getGroup 4 5 3 3 (9, 9))
      (inject_Z (5 / 3) + (inject_Z 9 / inject_Z 3) * inject_Z (4 / 3))%Q
  ∧ length (boardCells (9, 9)) = 81%nat
  ∧ length (groupMembers 3 3 (9, 9) 4) = 9%nat.
Proof.
  destruct (getGroup_partitions_board 4 5 4 3 3 9 9) as [Hf Hp]; [lia|lia|].
  split; [exact Hf|].
  destruct Hp as (Hlen & _ & Hsize);
    [by exists 3|by exists 3|lia|lia|].
  split; [exact Hlen|]. apply Hsize. vm_compute. split; [discriminate|reflexivity].
Defined.

(** ** Migration *)

Section UpgradeFacts.
Variable getColor : option string -> option string.

Lemma Qltb_eq_1 (v : Q) (k : Z) :
  (v == 1)%Q -> 10 < k -> Qltb v (k # 10) = true.
Proof.
  intros Hv Hk. unfold Qltb. apply negb_true_iff.
  destruct (Qle_bool (k # 10) v) eqn:E; [|done].
  apply Qle_bool_iff in E. rewrite Hv in E.
  unfold Qle in E. simpl in E. lia.
Qed.

Lemma upgrade_current (c : RawConfig) :
  raw_version c = Some CURR_VER -> upgrade getColor c = Some c.
Proof. destruct c as [v d cs gs gu t e f]. simpl. by intros ->. Qed.

Lemma upgrade_version (c c' : RawConfig) :
  upgrade getColor c = Some c' -> raw_version c' = Some CURR_VER.
Proof.
  unfold upgrade. intros H.
  repeat match type of H with
         | (mbind _ ?m) = Some _ =>
             destruct m eqn:?; simpl in H; [|discriminate]
         end.
  by injection H as <-.
Qed.

Lemma upgrade_total (c : RawConfig) :
  is_Some (raw_guesses c) ∨ Qltb (versionOf c) (11 # 10) = true ->
  is_Some (upgrade getColor c).
Proof.
  intros H. unfold upgrade.
  set (c1 := if Qltb (versionOf c) (11 # 10) then upgrade_1_1 c else c).
  assert (is_Some (raw_guesses c1)) as [g1 Hg1].
  { subst c1. destruct (Qltb (versionOf c) (11 # 10)); [by eexists|].
    by destruct H. }
  clearbody c1. clear H.
  destruct (Qltb (versionOf c) (12 # 10)); simpl;
    [unfold upgrade_1_2; rewrite Hg1; simpl|];
    destruct (Qltb (versionOf c) (13 # 10)); simpl;
    (destruct (Qltb (versionOf c) (14 # 10)); simpl;
     [unfold upgrade_1_4; simpl; rewrite ?Hg1; simpl|]);
    (destruct (Qltb (versionOf c) (15 # 10)); simpl;
     [unfold upgrade_1_5; simpl; rewrite ?Hg1; simpl|]);
    by eexists.
Qed.
End UpgradeFacts.

(** C7: [upgrade] is idempotent, it leaves a document of the current
    version 1.5 as it is, and it returns a document whenever the loaded
    document has its list of guesses or is older than 1.1. *)
Theorem upgrade_idempotent (getColor : option string -> option string)
    (c c' : RawConfig) :
  upgrade getColor c = Some c' ->
  upgrade getColor c' = Some c'
  ∧ (raw_version c = Some CURR_VER -> c' = c)
  ∧ (∀ d, raw_version d = Some CURR_VER -> upgrade getColor d = Some d)
  ∧ (∀ d, is_Some (raw_guesses d) ∨ Qltb (versionOf d) (11 # 10) = true ->
          is_Some (upgrade getColor d)).
Proof.
  intros H. split; [|split; [|split]].
  - apply upgrade_current. by eapply upgrade_version.
  - intros Hv. rewrite (upgrade_current getColor c Hv) in H. by injection H.
  - apply upgrade_current.
  - apply upgrade_total.
Qed.

(** The version-1.0 example file goes to its 1.5 form, and upgrading that
    again changes nothing. *)
Lemma upgrade_idempotent_witness :
  upgrade (getColor standardColor) legacyDoc = Some legacyDocUpgraded
  ∧ upgrade (getColor standardColor) legacyDocUpgraded = Some legacyDocUpgraded.
Proof.
  assert (upgrade (getColor standardColor) legacyDoc = Some legacyDocUpgraded) as H
    by (vm_compute; reflexivity).
  split; [exact H|].
  exact (proj1 (upgrade_idempotent (getColor standardColor) legacyDoc
                  legacyDocUpgraded H)).
Defined.


(** ** The colours that [upgrade] writes *)

Section Colours.
(** Whatever the computed colour is, the last property of the match that
    [rgb2Hex] goes through is "groups", which is [undefined]: the text
    for it is "NaN". *)
Lemma rgb2Hex_tail (rgb h : string) :
  rgb2Hex rgb = Some h -> ∃ pre, h = jsappend pre "NaN".
Proof.
  unfold rgb2Hex.
  destruct (execRgb rgb) as [[index [[r g] b]]|]; [|done].
  intros [= <-]. by eexists.
Qed.

Lemma rgb2Hex_not_hex (rgb h : string) :
  last (units h) ≠ Some 78%N -> rgb2Hex rgb ≠ Some h.
Proof.
  intros Hlast (pre & ->)%rgb2Hex_tail. apply Hlast. simpl.
  by rewrite last_app.
Qed.
End Colours.

(** C8 at its failing input, the version-1.0 example file, in any browser.
    [upgrade] returns a document of version 1.5 whose cells have guess 1
    where [isGuess] was true and guess 0 where it was false, with three
    guess styles, the small one at index 2, and [elapsed] 0.  But the
    colours of the first two styles are what [rgb2Hex] makes of the
    colours that the browser computes, and [rgb2Hex] also goes through the
    properties "index", "input" and "groups" of its match: its result ends
    with "NaN" or is [undefined], and is never the colour of the default
    style.  For the colours "rgb(255, 255, 255)" and "rgb(255, 0, 0)" that
    a browser computes for white and red, the styles get "#ffffff00NaNNaN"
    and "#ff000000NaNNaN". *)
Theorem upgrade_legacy_guess_colours (computedColor : option string -> string) :
  ∃ c',
    upgrade (getColor computedColor) legacyDoc = Some c'
    ∧ raw_version c' = Some CURR_VER
    ∧ raw_cells c' = raw_cells legacyDocUpgraded
    ∧ raw_elapsed c' = Some 0
    ∧ raw_guesses c'
      = Some [mkRawGuess (rgb2Hex (computedColor (Some "#ffffff"))) false (Some false);
              mkRawGuess (rgb2Hex (computedColor (Some "#ff0000"))) false (Some true);
              mkRawGuess (Some "#ff0000") true (Some true)]
    ∧ rgb2Hex (computedColor (Some "#ffffff")) ≠ Some "#ffffff"
    ∧ rgb2Hex (computedColor (Some "#ff0000")) ≠ Some "#ff0000"
    ∧ rgb2Hex "rgb(255, 255, 255)" = Some "#ffffff00NaNNaN"
    ∧ rgb2Hex "rgb(255, 0, 0)" = Some "#ff000000NaNNaN"
    ∧ upgrade (getColor standardColor) legacyDoc = Some legacyDocUpgraded.
Proof.
  eexists. split; [reflexivity|]. simpl.
  split; [done|]. split; [done|]. split; [done|]. split; [done|].
  split; [by apply rgb2Hex_not_hex|]. split; [by apply rgb2Hex_not_hex|].
  split; [vm_compute; reflexivity|]. split; vm_compute; reflexivity.
Qed.

(** The general form of the step from version 1.0: each cell has guess 1
    where its [isGuess] flag was true and guess 0 where it was false, and no
    [isGuess] flag any more; there are three guess styles, the small one at
    index 2, the colours of the first two as [getColor] gives them;
    [elapsed] is 0 and the version is 1.5. *)
Theorem upgrade_legacy_guesses (getColor : option string -> option string)
    (c : RawConfig) :
  (versionOf c == 1)%Q ->
  ∃ c', upgrade getColor c = Some c'
        ∧ raw_version c' = Some CURR_VER
        ∧ raw_cells c'
          = map (map (fun cell =>
                        mkRawCell (raw_val cell)
                          (Some (match raw_isGuess cell with
                                 | Some true => 1
                                 | _ => 0
                                 end))
                          None (raw_group cell) (raw_cell_color cell)
                          (raw_error cell)))
                (raw_cells c)
        ∧ raw_guesses c'
          = Some [mkRawGuess (getColor (Some "#ffffff")) false (Some false);
                  mkRawGuess (getColor (Some "#ff0000")) false (Some true);
                  mkRawGuess (Some "#ff0000") true (Some true)]
        ∧ (∃ small, (raw_guesses c' ≫= (.!! 2%nat)) = Some small
                    ∧ raw_isSmall small = true)
        ∧ raw_elapsed c' = Some 0.
Proof.
  intros Hv. unfold upgrade.
  rewrite !(Qltb_eq_1 _ _ Hv) by lia. simpl.
  eexists. split; [reflexivity|]. simpl.
  split; [done|]. split; [|split; [done|split; [by eexists|done]]].
  rewrite map_map. apply map_ext. intros row.
  rewrite map_map. apply map_ext. intros cell. simpl.
  by destruct (raw_isGuess cell) as [[]|].
Qed.

Lemma upgrade_legacy_guesses_witness :
  ∃ c', upgrade (getColor standardColor) legacyDoc = Some c'
        ∧ raw_cells c' = raw_cells legacyDocUpgraded
        ∧ raw_guesses c' = raw_guesses legacyDocUpgraded
        ∧ raw_elapsed c' = Some 0.
Proof.
  destruct (upgrade_legacy_guesses (getColor standardColor) legacyDoc)
    as (c' & Hup & _ & Hcells & Hguesses & _ & Hel); [reflexivity|].
  exists c'. split; [exact Hup|]. split; [exact Hcells|].
  split; [rewrite Hguesses; vm_compute; reflexivity|exact Hel].
Defined.

(** ** Running handlers *)

Section Running.
Context {A B : Type}.

Lemma bind_run (m : M A) (k : A -> M B) s s1 a :
  m s = (s1, Some a) -> bind m k s = k a s1.
Proof. unfold bind. by intros ->. Qed.

Lemma bind_throw (m : M A) (k : A -> M B) s s1 :
  m s = (s1, None) -> bind m k s = (s1, None).
Proof. unfold bind. by intros ->. Qed.

Lemma bind_ok (m : M A) (k : A -> M B) s s' b :
  bind m k s = (s', Some b) ->
  ∃ a s1, m s = (s1, Some a) ∧ k a s1 = (s', Some b).
Proof.
  unfold bind. destruct (m s) as [s1 [a|]]; [|done].
  intros H. by exists a, s1.
Qed.
End Running.

(** ** Two runs of one computation *)

Section Det.
Variable R : State -> State -> Prop.

Lemma det_ret {A} (a : A) : det R (ret a).
Proof. by intros s1 s2 H. Qed.

Lemma det_throw {A} : det R (@throw A).
Proof. by intros s1 s2 H. Qed.

Lemma det_bind {A B} (m : M A) (k : A -> M B) :
  det R m -> (∀ a, det R (k a)) -> det R (bind m k).
Proof.
  intros Hm Hk s1 s2 H. unfold bind.
  destruct (Hm s1 s2 H) as [Hr HR].
  destruct (m s1) as [t1 r1], (m s2) as [t2 r2]. simpl in *. subst r2.
  destruct r1 as [a|]; [|done]. by apply Hk.
Qed.

Lemma det_defined {A} (o : option A) : det R (defined o).
Proof. destruct o; [apply det_ret|apply det_throw]. Qed.

Lemma det_forM_ {A} (f : A -> M unit) (l : list A) :
  (∀ x, det R (f x)) -> det R (forM_ f l).
Proof.
  intros Hf. induction l as [|x l IH]; simpl; [apply det_ret|].
  apply det_bind; [apply Hf|done].
Qed.

Lemma det_mapM {A B} (f : A -> M B) (l : list A) :
  (∀ x, det R (f x)) -> det R (mapM f l).
Proof.
  intros Hf. induction l as [|x l IH]; simpl; [apply det_ret|].
  apply det_bind; [apply Hf|intros y].
  apply det_bind; [done|intros ys; apply det_ret].
Qed.

Lemma det_foldM {A B} (f : B -> A -> M B) (b : B) (l : list A) :
  (∀ b x, det R (f b x)) -> det R (foldM f b l).
Proof.
  intros Hf. revert b. induction l as [|x l IH]; intros b; simpl;
    [apply det_ret|].
  apply det_bind; [apply Hf|done].
Qed.

Lemma det_findM {A} (p : option A -> M bool) (l : list (option A)) :
  (∀ x, det R (p x)) -> det R (findM p l).
Proof.
  intros Hp. induction l as [|x l IH]; simpl; [apply det_ret|].
  apply det_bind; [apply Hp|intros []; [apply det_ret|done]].
Qed.

(** The steps of [validate]: it reads [val], [guess] and [group] of
    cells, assigns their [error], and sets React state. *)
Hypothesis det_val : ∀ cell, det R (readCell val cell).
Hypothesis det_guess : ∀ cell, det R (readCell guess cell).
Hypothesis det_group : ∀ cell, det R (readCell group cell).
Hypothesis det_error : ∀ b cell, det R (writeCell (set_error b) cell).
Hypothesis det_setConfig : ∀ c, det R (setConfig c).
Hypothesis det_setValidationState : ∀ v, det R (setValidationState v).
Hypothesis det_setTimerStarted : ∀ b, det R (setTimerStarted b).
Hypothesis det_alertCompleted : ∀ t, det R (alertCompleted t).

Ltac det_step :=
  first
    [ apply det_ret | apply det_throw | apply det_defined
    | apply det_val | apply det_guess | apply det_group | apply det_error
    | apply det_setConfig | apply det_setValidationState
    | apply det_setTimerStarted | apply det_alertCompleted
    | apply det_bind; [|intros ?]
    | apply det_forM_; intros ?
    | apply det_mapM; intros ?
    | apply det_foldM; intros ? ?
    | apply det_findM; intros ?
    | match goal with
      | |- det _ (match ?x with _ => _ end) => destruct x
      | |- det _ (if ?x then _ else _) => destruct x
      | |- det _ (let '(_, _) := ?x in _) => destruct x
      end ].

Section Checks.
Variable newConfig : Config.

Lemma det_isSmallGuess cell : det R (isSmallGuess newConfig cell).
Proof. unfold isSmallGuess. repeat det_step. Qed.

Lemma det_allUnique cellList : det R (allUnique newConfig cellList).
Proof.
  unfold allUnique.
  repeat first [apply det_isSmallGuess | det_step].
Qed.

Lemma det_pushAt cellGroups g cell : det R (pushAt cellGroups g cell).
Proof. unfold pushAt. repeat det_step. Qed.

Lemma det_cellAt cs r c : det R (cellAt cs r c).
Proof. unfold cellAt. repeat det_step. Qed.

Lemma det_defaultValidate ops : det R (defaultValidate newConfig ops).
Proof.
  unfold defaultValidate. destruct (firstSquare ops) as [firstRow firstCol].
  repeat first [apply det_isSmallGuess | apply det_allUnique
               | apply det_pushAt | det_step].
Qed.

Lemma det_clearErrors : det R (clearErrors newConfig).
Proof. unfold clearErrors. repeat det_step. Qed.

Lemma det_validateChecks : det R (validateChecks newConfig).
Proof.
  unfold validateChecks.
  repeat first [apply det_defaultValidate | apply det_allUnique
               | apply det_cellAt | det_step].
Qed.

Lemma det_validateBody : det R (validateBody newConfig).
Proof.
  unfold validateBody.
  apply det_bind; [apply det_clearErrors|intros _; apply det_validateChecks].
Qed.
End Checks.

Lemma det_validate render c : det R (validate render c).
Proof.
  unfold validate. destruct (decide _); [apply det_ret|apply det_validateBody].
Qed.
End Det.

(** ** Stores that differ in error flags *)

Section Stores.
Lemma same_data_trans c1 c2 c3 :
  same_data c1 c2 -> same_data c2 c3 -> same_data c1 c3.
Proof. unfold same_data. congruence. Qed.

Lemma data_eq_refl st : data_eq st st.
Proof. apply Forall_Forall2_diag, Forall_forall. by intros c _. Qed.

Lemma data_eq_sym st1 st2 : data_eq st1 st2 -> data_eq st2 st1.
Proof. intros H. apply Forall2_flip. eapply Forall2_impl; [done|]. by intros c1 c2. Qed.

Lemma data_eq_trans st1 st2 st3 :
  data_eq st1 st2 -> data_eq st2 st3 -> data_eq st1 st3.
Proof.
  intros H1 H2. eapply Forall2_trans; [|done..].
  intros c1 c2 c3 ? ?. by eapply same_data_trans.
Qed.

Lemma data_eq_lookup st1 st2 l c1 :
  data_eq st1 st2 -> st1 !! l = Some c1 ->
  ∃ c2, st2 !! l = Some c2 ∧ same_data c1 c2.
Proof. intros H Hl. by eapply Forall2_lookup_l. Qed.

Lemma data_eq_lookup_None st1 st2 l :
  data_eq st1 st2 -> st1 !! l = None -> st2 !! l = None.
Proof.
  intros H Hl. apply lookup_ge_None. apply lookup_ge_None in Hl.
  by rewrite <-(Forall2_length _ _ _ H).
Qed.

Lemma data_eq_insert st1 st2 l c1 c2 :
  data_eq st1 st2 -> same_data c1 c2 ->
  data_eq (<[l := c1]> st1) (<[l := c2]> st2).
Proof. intros. by apply Forall2_insert. Qed.

Lemma same_data_set_error b c : same_data c (set_error b c).
Proof. done. Qed.

Lemma same_data_set_error_eq b c1 c2 :
  same_data c1 c2 -> set_error b c1 = set_error b c2.
Proof. unfold same_data, set_error. intros H. by injection H as -> -> -> ->. Qed.

Lemma same_data_fields c1 c2 :
  same_data c1 c2 ->
  val c1 = val c2 ∧ guess c1 = guess c2 ∧ group c1 = group c2
  ∧ color c1 = color c2.
Proof. unfold same_data, set_error. intros H. by injection H. Qed.

Lemma data_eq_insert_l st l c c' :
  st !! l = Some c -> same_data c c' -> data_eq st (<[l := c']> st).
Proof.
  intros Hl Hc. rewrite <-(list_insert_id st l c) at 1 by done.
  apply data_eq_insert; [apply data_eq_refl|done].
Qed.
End Stores.

(** ** The steps of [validate] on stores that differ in error flags *)

Section Steps.
Lemma readCell_run {A} (f : Cell -> A) l c s :
  store s !! l = Some c -> readCell f (Some l) s = (s, Some (f c)).
Proof. unfold readCell. simpl. by intros ->. Qed.

Lemma writeCell_run f l c s :
  store s !! l = Some c ->
  writeCell f (Some l) s = (with_store s (<[l := f c]> (store s)), Some tt).
Proof. unfold writeCell. simpl. by intros ->. Qed.

Lemma writeCell_None f l s :
  store s !! l = None -> writeCell f (Some l) s = (s, None).
Proof. unfold writeCell. simpl. by intros ->. Qed.

Lemma det_readCell_agree {A} D (f : Cell -> A) cell :
  (∀ c1 c2, same_data c1 c2 -> f c1 = f c2) -> det (agree D) (readCell f cell).
Proof.
  intros Hf s1 s2 H. split; [|done]. destruct H as [H _].
  destruct cell as [l|]; [|done].
  destruct (store s1 !! l) as [c1|] eqn:E1.
  - destruct (data_eq_lookup _ _ _ _ H E1) as (c2 & E2 & Hc).
    rewrite (readCell_run f l c1 s1 E1), (readCell_run f l c2 s2 E2). simpl.
    f_equal. by apply Hf.
  - pose proof (data_eq_lookup_None _ _ _ H E1) as E2.
    unfold readCell. simpl. by rewrite E1, E2.
Qed.

(** Assigning the error flag of a cell in both runs: the cell is the same
    in both afterwards. *)
Lemma writeCell_error_agree D b l s1 s2 :
  agree D s1 s2 ->
  (writeCell (set_error b) (Some l) s1).2 = (writeCell (set_error b) (Some l) s2).2
  ∧ agree D (writeCell (set_error b) (Some l) s1).1
            (writeCell (set_error b) (Some l) s2).1
  ∧ ((writeCell (set_error b) (Some l) s1).2 = Some tt ->
     agree (fun x => x = l ∨ D x)
           (writeCell (set_error b) (Some l) s1).1
           (writeCell (set_error b) (Some l) s2).1).
Proof.
  intros [H HD]. destruct (store s1 !! l) as [c1|] eqn:E1.
  - destruct (data_eq_lookup _ _ _ _ H E1) as (c2 & E2 & Hc).
    rewrite (writeCell_run _ _ _ _ E1), (writeCell_run _ _ _ _ E2). simpl.
    rewrite (same_data_set_error_eq b c1 c2 Hc).
    assert (data_eq (<[l:=set_error b c2]> (store s1))
                    (<[l:=set_error b c2]> (store s2))) as Hd
      by (by apply data_eq_insert).
    assert (∀ x, x = l ∨ D x ->
                 <[l:=set_error b c2]> (store s1) !! x
                 = <[l:=set_error b c2]> (store s2) !! x) as Hl.
    { intros x Hx. destruct (decide (x = l)) as [->|Hne].
      - rewrite !list_lookup_insert_eq; [done|..].
        + by eapply lookup_lt_Some.
        + by eapply lookup_lt_Some.
      - rewrite !list_lookup_insert_ne by done.
        destruct Hx as [?|Hx]; [done|by apply HD]. }
    split; [done|]. split; [|done].
    split; [done|]. intros x Hx. apply Hl. by right.
  - pose proof (data_eq_lookup_None _ _ _ H E1) as E2.
    rewrite (writeCell_None _ _ _ E1), (writeCell_None _ _ _ E2). simpl.
    split; [done|]. split; [done|discriminate].
Qed.

Lemma det_writeCell_error_agree D b cell :
  det (agree D) (writeCell (set_error b) cell).
Proof.
  intros s1 s2 H. destruct cell as [l|]; [|done].
  destruct (writeCell_error_agree D b l s1 s2 H) as (? & ? & _). done.
Qed.

Lemma agree_weaken (D D' : loc -> Prop) s1 s2 :
  (∀ l, D' l -> D l) -> agree D s1 s2 -> agree D' s1 s2.
Proof. intros HD [H Hl]. split; [done|]. intros l Hx. by apply Hl, HD. Qed.

(** Clearing the error flags of a row in both runs. *)
Lemma clear_row_agree D (row : list loc) s1 s2 :
  agree D s1 s2 ->
  let m := forM_ (fun cell => writeCell (set_error false) (Some cell)) row in
  (m s1).2 = (m s2).2
  ∧ ((m s1).2 = Some tt -> agree (fun x => x ∈ row ∨ D x) (m s1).1 (m s2).1).
Proof.
  revert D s1 s2. induction row as [|l row IH]; intros D s1 s2 H; simpl.
  - split; [done|]. intros _. eapply agree_weaken; [|done].
    intros l [Hl|Hl]; [by apply elem_of_nil in Hl|done].
  - destruct (writeCell_error_agree D false l s1 s2 H) as (Hr & _ & Ha).
    unfold bind.
    destruct (writeCell (set_error false) (Some l) s1) as [t1 r1].
    destruct (writeCell (set_error false) (Some l) s2) as [t2 r2].
    simpl in *. subst r2. destruct r1 as [[]|]; [|done].
    destruct (IH _ t1 t2 (Ha eq_refl)) as [Hr' Ha'].
    split; [done|]. intros Hok. eapply agree_weaken; [|by apply Ha'].
    intros x [Hx|Hx]; [|tauto].
    apply elem_of_cons in Hx as [->|Hx]; tauto.
Qed.

Lemma clearErrors_agree D c s1 s2 :
  agree D s1 s2 ->
  (clearErrors c s1).2 = (clearErrors c s2).2
  ∧ ((clearErrors c s1).2 = Some tt ->
     agree (fun x => x ∈ docLocs c ∨ D x) (clearErrors c s1).1 (clearErrors c s2).1).
Proof.
  unfold clearErrors, docLocs.
  revert D s1 s2. induction (cells c) as [|row rows IH]; intros D s1 s2 H; simpl.
  - split; [done|]. intros _. eapply agree_weaken; [|done].
    intros l [Hl|Hl]; [by apply elem_of_nil in Hl|done].
  - destruct (clear_row_agree D row s1 s2 H) as (Hr & Ha). simpl in *.
    unfold bind.
    destruct (forM_ _ row s1) as [t1 r1]. destruct (forM_ _ row s2) as [t2 r2].
    simpl in *. subst r2. destruct r1 as [[]|]; [|done].
    destruct (IH _ t1 t2 (Ha eq_refl)) as [Hr' Ha'].
    split; [done|]. intros Hok. eapply agree_weaken; [|by apply Ha'].
    intros x [Hx|Hx]; [|tauto].
    apply elem_of_app in Hx as [Hx|Hx]; tauto.
Qed.

Lemma det_state_agree {A} D (m : M A) :
  (∀ s, store (m s).1 = store s) -> (∀ s1 s2, (m s1).2 = (m s2).2) ->
  det (agree D) m.
Proof.
  intros Hst Hres s1 s2 H. split; [done|].
  unfold agree. by rewrite !Hst.
Qed.
End Steps.

(** Two runs of [validate] on stores that differ in error flags only: the
    results are the same, and after a run that returns the cells of the
    document are the same. *)
Lemma validateBody_agree c s1 s2 :
  data_eq (store s1) (store s2) ->
  (validateBody c s1).2 = (validateBody c s2).2
  ∧ ((validateBody c s1).2 = Some tt ->
     agree (fun l => l ∈ docLocs c) (validateBody c s1).1 (validateBody c s2).1).
Proof.
  intros H. unfold validateBody, bind.
  destruct (clearErrors_agree (fun _ => False) c s1 s2) as [Hr Ha].
  { split; [done|]. by intros l []. }
  destruct (clearErrors c s1) as [t1 r1], (clearErrors c s2) as [t2 r2].
  simpl in *. subst r2. destruct r1 as [[]|]; [|done].
  assert (agree (fun l => l ∈ docLocs c) t1 t2) as Ha'.
  { eapply agree_weaken; [|by apply Ha]. intros l Hl. by left. }
  assert (det (agree (fun l => l ∈ docLocs c)) (validateChecks c)) as Hdet.
  { apply det_validateChecks.
    - intros cell. apply det_readCell_agree.
      by intros c1 c2 (? & ? & ? & ?)%same_data_fields.
    - intros cell. apply det_readCell_agree.
      by intros c1 c2 (? & ? & ? & ?)%same_data_fields.
    - intros cell. apply det_readCell_agree.
      by intros c1 c2 (? & ? & ? & ?)%same_data_fields.
    - intros b cell. apply det_writeCell_error_agree.
    - intros c'. by apply det_state_agree.
    - intros v. by apply det_state_agree.
    - intros b. by apply det_state_agree.
    - intros t. by apply det_state_agree. }
  destruct (Hdet t1 t2 Ha') as [Hres Hag]. done.
Qed.

(** ** [validate] assigns error flags and nothing else in the store *)

Section Frame.
Lemma errors_apart_refl s : errors_apart s s.
Proof. split; [apply data_eq_refl|done]. Qed.

Lemma errors_apart_trans s1 s2 s3 :
  errors_apart s1 s2 -> errors_apart s2 s3 -> errors_apart s1 s3.
Proof.
  intros (H1 & Ha1 & Hb1 & Hc1) (H2 & Ha2 & Hb2 & Hc2).
  split; [by eapply data_eq_trans|]. split; [congruence|]. split; congruence.
Qed.

Lemma det_framed {A} s0 (m : M A) :
  (∀ s, errors_apart s (m s).1) -> det (framed s0) m.
Proof.
  intros Hm s1 s2 [<- H]. split; [done|]. split; [done|].
  by eapply errors_apart_trans.
Qed.

Lemma readCell_state {A} (f : Cell -> A) cell s : (readCell f cell s).1 = s.
Proof. done. Qed.

Lemma writeCell_error_apart b cell s :
  errors_apart s (writeCell (set_error b) cell s).1.
Proof.
  destruct cell as [l|]; [|apply errors_apart_refl].
  destruct (store s !! l) as [c|] eqn:E.
  - rewrite (writeCell_run _ _ _ _ E). simpl.
    split; [|done]. simpl. by eapply data_eq_insert_l.
  - rewrite (writeCell_None _ _ _ E). apply errors_apart_refl.
Qed.

Lemma validate_frame render c s : errors_apart s (validate render c s).1.
Proof.
  assert (det (framed s) (validate render c)) as Hdet.
  { apply det_validate.
    - intros cell. apply det_framed. intros s'. apply errors_apart_refl.
    - intros cell. apply det_framed. intros s'. apply errors_apart_refl.
    - intros cell. apply det_framed. intros s'. apply errors_apart_refl.
    - intros b cell. apply det_framed. intros s'. apply writeCell_error_apart.
    - intros c'. apply det_framed. intros s'. split; [apply data_eq_refl|done].
    - intros v. apply det_framed. intros s'. split; [apply data_eq_refl|done].
    - intros b. apply det_framed. intros s'. split; [apply data_eq_refl|done].
    - intros t. apply det_framed. intros s'. split; [apply data_eq_refl|done]. }
  destruct (Hdet s s) as [_ [_ H]]; [|done].
  split; [done|apply errors_apart_refl].
Qed.

(** A [validate] that returns has set [config], unless the type is Other. *)
Lemma validateBody_config c s s' :
  validateBody c s = (s', Some tt) -> config s' = c.
Proof.
  unfold validateBody, validateChecks. intros H.
  repeat match type of H with
         | bind _ _ _ = (_, Some _) =>
             apply bind_ok in H as (? & ? & _ & H)
         | (let '(_, _) := ?x in _) _ = _ => destruct x
         end.
  unfold setConfig in H. by injection H as <-.
Qed.
End Frame.

(** ** Loops over the cells of the document *)

Section Loops.
Lemma with_store_id s : with_store s (store s) = s.
Proof. by destruct s. Qed.

Lemma with_store_twice s st1 st2 :
  with_store (with_store s st1) st2 = with_store s st2.
Proof. done. Qed.

Lemma forM__app {A} (f : A -> M unit) (l1 l2 : list A) s :
  forM_ f (l1 ++ l2) s = bind (forM_ f l1) (fun _ => forM_ f l2) s.
Proof.
  revert s. induction l1 as [|x l1 IH]; intros s; simpl; [done|].
  unfold bind in *. destruct (f x s) as [s1 [[]|]]; [|done].
  apply IH.
Qed.

Lemma forM__concat {A} (f : A -> M unit) (ls : list (list A)) s :
  forM_ (forM_ f) ls s = forM_ f (concat ls) s.
Proof.
  revert s. induction ls as [|l ls IH]; intros s; simpl; [done|].
  rewrite forM__app. unfold bind.
  destruct (forM_ f l s) as [s1 [[]|]]; [|done]. apply IH.
Qed.

(** A loop that changes each cell of [ls] by [f]. *)
Lemma forM__pointwise (op : loc -> M unit) (f : Cell -> Cell) (ls : list loc) s :
  (∀ l c s, store s !! l = Some c ->
            op l s = (with_store s (<[l := f c]> (store s)), Some tt)) ->
  NoDup ls ∨ (∀ c, f (f c) = f c) ->
  (∀ l, l ∈ ls -> is_Some (store s !! l)) ->
  ∃ st', forM_ op ls s = (with_store s st', Some tt)
         ∧ length st' = length (store s)
         ∧ ∀ l, st' !! l = if decide (l ∈ ls) then f <$> store s !! l
                           else store s !! l.
Proof.
  intros Hop. revert s. induction ls as [|x ls IH]; intros s Hf Hls.
  - exists (store s). simpl. by rewrite with_store_id.
  - destruct (Hls x) as [c Hc]; [by left|].
    simpl. rewrite (bind_run _ _ _ _ _ (Hop x c s Hc)).
    destruct (IH (with_store s (<[x := f c]> (store s)))) as (st' & Hrun & Hlen & Hst).
    { destruct Hf as [Hf|Hf]; [left; by apply NoDup_cons in Hf as [_ ?]|by right]. }
    { intros l Hl. simpl. apply lookup_lt_is_Some. rewrite length_insert.
      apply lookup_lt_is_Some, Hls. by right. }
    exists st'. rewrite Hrun. simpl in *. split; [done|].
    split; [by rewrite Hlen, length_insert|].
    intros l. rewrite Hst.
    destruct (decide (l = x)) as [->|Hne].
    + rewrite list_lookup_insert_eq by (by eapply lookup_lt_Some).
      rewrite Hc. simpl.
      rewrite (decide_True (P := x ∈ x :: ls)) by (by left).
      destruct (decide (x ∈ ls)) as [Hin|Hin]; [|done].
      destruct Hf as [Hf|Hf]; [by apply NoDup_cons in Hf as [? _]|].
      by rewrite Hf.
    + rewrite list_lookup_insert_ne by done.
      destruct (decide (l ∈ ls)) as [Hin|Hin].
      * rewrite decide_True; [done|by right].
      * rewrite decide_False; [done|].
        intros [?|?]%elem_of_cons; done.
Qed.
End Loops.

(** ** Validation of a board of type Other *)

(** C6, as the code has it: on a document of type Other [validate] does
    nothing at all.  It returns at its guard, before the error flags are
    cleared: every cell keeps the error flag it had, set or not, no
    validation message is set and no completion alert is raised. *)
Theorem validate_other_noop (render : State) (c : option Config) (s : State) :
  type (match c with Some c' => c' | None => config render end) = TOther ->
  validate render c s = (s, Some tt).
Proof. intros H. unfold validate. by rewrite decide_True. Qed.

Lemma validate_other_noop_witness :
  validate staleErrorBoard None staleErrorBoard = (staleErrorBoard, Some tt).
Proof. apply validate_other_noop. reflexivity. Defined.

(** C6 as stated fails: the board [staleErrorBoard] has type Other, and
    after [validate] its top left cell still carries its error flag. *)
Lemma validate_other_counterexample :
  type (config staleErrorBoard) = TOther
  ∧ ¬ (∀ l cell,
         store (after (fun render => validate render None) staleErrorBoard) !! l
         = Some cell ->
         error cell = false).
Proof.
  split; [reflexivity|]. intros H.
  specialize (H 0%nat (mkCell "5" 1 0 None true) eq_refl). discriminate.
Qed.

(** ** Deleting a group *)

Section DeleteGroup.
Variable i : Z.

Lemma deleteGroup_cell l c s :
  store s !! l = Some c ->
  (g <- readCell group (Some l) ;;
   if i <=? g then writeCell (set_group (Z.max 0 (g - 1))) (Some l) else ret tt) s
  = (with_store s (<[l := shiftGroup i c]> (store s)), Some tt).
Proof.
  intros Hl. rewrite (bind_run _ _ _ _ _ (readCell_run group l c s Hl)).
  unfold shiftGroup. destruct (i <=? group c).
  - by rewrite (writeCell_run _ _ _ _ Hl).
  - by rewrite list_insert_id, with_store_id.
Qed.
End DeleteGroup.

(** In a document with at least two groups whose cells all refer to a
    group of the list, [deleteGroup i] for an index [i] of the list takes
    the group out of the list, decrements the group of every cell whose
    group was [i] or more (not below 0), and leaves every cell with a group
    of the shorter list. *)
Theorem deleteGroup_keeps_references (s : State) (i : Z) :
  NoDup (docLocs (config s)) ->
  (∀ l, l ∈ docLocs (config s) ->
        ∃ cell, store s !! l = Some cell
                ∧ 0 <= group cell < Z.of_nat (length (groups (config s)))) ->
  0 <= i < Z.of_nat (length (groups (config s))) ->
  2 <= Z.of_nat (length (groups (config s))) ->
  ∃ s', handle (fun render => deleteGroup render i) s = (s', Some tt)
        ∧ cells (config s') = cells (config s)
        ∧ groups (config s')
          = take (Z.to_nat i) (groups (config s))
            ++ drop (S (Z.to_nat i)) (groups (config s))
        ∧ Z.of_nat (length (groups (config s')))
          = Z.of_nat (length (groups (config s))) - 1
        ∧ ∀ l, l ∈ docLocs (config s) ->
               ∃ cell cell',
                 store s !! l = Some cell
                 ∧ store s' !! l = Some cell'
                 ∧ group cell'
                   = (if i <=? group cell then Z.max 0 (group cell - 1)
                      else group cell)
                 ∧ 0 <= group cell' < Z.of_nat (length (groups (config s'))).
Proof.
  intros Hnd Hcells Hi Hlen.
  destruct (forM__pointwise _ (shiftGroup i) (docLocs (config s)) s
              (deleteGroup_cell i)) as (st' & Hrun & _ & Hst).
  { by left. }
  { intros l Hl. destruct (Hcells l Hl) as (cell & -> & _). by eexists. }
  unfold handle, deleteGroup. simpl.
  unfold docLocs in Hrun. rewrite <-forM__concat in Hrun.
  rewrite (bind_run _ _ _ _ _ Hrun).
  eexists. split; [reflexivity|]. simpl.
  split; [done|].
  assert (Z.to_nat (rel_index (Z.of_nat (length (groups (config s)))) i)
          = Z.to_nat i) as Hrel.
  { unfold rel_index. destruct (Z.ltb_spec i 0); lia. }
  unfold splice1. rewrite Hrel. split; [done|].
  assert (Z.of_nat (length (take (Z.to_nat i) (groups (config s))
                            ++ drop (S (Z.to_nat i)) (groups (config s))))
          = Z.of_nat (length (groups (config s))) - 1) as Hlen'.
  { rewrite length_app, length_take, length_drop. lia. }
  split; [done|].
  intros l Hl. destruct (Hcells l Hl) as (cell & Hcell & Hg).
  exists cell, (shiftGroup i cell). split; [done|].
  split; [by rewrite Hst, decide_True, Hcell|].
  rewrite Hlen'. unfold shiftGroup.
  destruct (Z.leb_spec i (group cell)); simpl; split; lia.
Qed.

(** Deleting group 2 of five: the cell in group 4 goes to group 3, and four
    groups are left. *)
Lemma deleteGroup_keeps_references_witness :
  ∃ s', handle (fun render => deleteGroup render 2) fiveGroupBoard = (s', Some tt)
        ∧ length (groups (config s')) = 4%nat
        ∧ group <$> store s' !! 2%nat = Some 3.
Proof.
  destruct (deleteGroup_keeps_references fiveGroupBoard 2)
    as (s' & Hrun & _ & Hgroups & _ & Hcell).
  - compute_done.
  - intros l Hl. vm_compute in Hl.
    repeat (apply elem_of_cons in Hl as [->|Hl]);
      [eexists; split; [reflexivity|simpl; lia]..|by apply elem_of_nil in Hl].
  - simpl. lia.
  - simpl. lia.
  - exists s'. split; [exact Hrun|]. split; [by rewrite Hgroups|].
    destruct (Hcell 2%nat) as (cell & cell' & Hc & Hc' & Hg & _).
    + compute_done.
    + injection Hc as <-. rewrite Hc'. simpl. by rewrite Hg.
Defined.

(** C4 at its failing input: a board of type Squiggly with a single group,
    to which all of its cells refer, and [deleteGroup 0].  The call returns;
    no group is left, and every cell still has group 0, which is no index of
    the empty list.  Typing "5" in the top left cell returned before the
    deletion; after it, the [validate] of that edit throws when it looks
    for the group of a cell. *)
Theorem deleteGroup_last_group_dangles :
  let s0 := oneGroupSquiggly in
  let s1 := after (fun render => deleteGroup render 0) s0 in
  let edit := fun render => cellValCallback render 0 0 "5" in
  length (groups (config s0)) = 1%nat
  ∧ Forall (fun l => (group <$> store s0 !! l) = Some 0) (docLocs (config s0))
  ∧ handle (fun render => deleteGroup render 0) s0 = (s1, Some tt)
  ∧ groups (config s1) = []
  ∧ cells (config s1) = cells (config s0)
  ∧ Forall (fun l => (group <$> store s1 !! l) = Some 0) (docLocs (config s1))
  ∧ (handle edit s0).2 = Some tt
  ∧ (handle edit s1).2 = None.
Proof.
  intros s0 s1 edit.
  split; [reflexivity|].
  split; [apply (bool_decide_unpack _); vm_compute; exact I|].
  split; [vm_compute; reflexivity|]. split; [vm_compute; reflexivity|].
  split; [vm_compute; reflexivity|].
  split; [|split; vm_compute; reflexivity].
  apply (bool_decide_unpack _). vm_compute. exact I.
Qed.

(** ** The cell-value edit *)

Section Edit.
Lemma find_first {A} (f : A -> bool) (l : list A) x :
  List.find f l = Some x ->
  ∃ pre post, l = pre ++ x :: post ∧ f x = true ∧ ∀ y, y ∈ pre -> f y = false.
Proof.
  induction l as [|a l IH]; simpl; [done|].
  destruct (f a) eqn:Ea.
  - intros [= ->]. exists [], l. split; [done|]. split; [done|].
    intros y Hy. by apply elem_of_nil in Hy.
  - intros (pre & post & -> & Hx & Hpre)%IH.
    exists (a :: pre), post. split; [done|]. split; [done|].
    intros y [->|Hy]%elem_of_cons; [done|by apply Hpre].
Qed.

Lemma find_nothing {A} (f : A -> bool) (l : list A) :
  List.find f l = None -> ∀ y, y ∈ l -> f y = false.
Proof.
  induction l as [|a l IH]; simpl; intros H y Hy.
  - by apply elem_of_nil in Hy.
  - destruct (f a) eqn:Ea; [done|].
    apply elem_of_cons in Hy as [->|Hy]; [done|by apply IH].
Qed.

(** In a string without surrogates every code unit is a code point. *)
Lemma codePointsOf_bmp (us : list N) :
  Forall (fun u => isHighSurrogate u = false ∧ isLowSurrogate u = false) us ->
  codePointsOf us = (fun u => JS [u]) <$> us.
Proof.
  induction 1 as [|a us [Ha _] Hus IH]; [done|].
  simpl. rewrite Ha. simpl. destruct us as [|b us]; [done|].
  by rewrite IH.
Qed.

Lemma includes_unit (s : string) (u : N) :
  includes s (JS [u]) = true <-> u ∈ units s.
Proof.
  unfold includes. rewrite existsb_exists.
  change (jslength (JS [u])) with 1%nat. change (units (JS [u])) with [u].
  split.
  - intros (k & _ & Hk%bool_decide_eq_true).
    apply (f_equal head) in Hk. simpl in Hk.
    destruct (drop k (units s)) as [|x rest] eqn:Hd; [done|].
    simpl in Hk. injection Hk as ->.
    apply (list_elem_of_lookup_2 _ k).
    rewrite <-(Nat.add_0_r k), <-lookup_drop, Hd. done.
  - intros (k & Hk)%list_elem_of_lookup. exists k. split.
    + apply in_seq. apply lookup_lt_Some in Hk. unfold jslength. lia.
    + apply bool_decide_eq_true.
      rewrite <-(Nat.add_0_r k), <-lookup_drop in Hk.
      destruct (drop k (units s)) as [|x rest]; [done|].
      injection Hk as ->. done.
Qed.

(** The character that [diff] picks on an input that is not empty and has
    no surrogates. *)
Lemma diff_spec (oldVal newVal : string) :
  (0 < jslength newVal)%nat -> bmp newVal ->
  ∃ ch, diff oldVal newVal = Some (JS [ch])
        ∧ (((jslength oldVal <= jslength newVal)%nat
            ∧ ∃ pre post, units newVal = pre ++ ch :: post
                          ∧ (ch ∉ units oldVal)
                          ∧ (∀ x, x ∈ pre -> x ∈ units oldVal))
           ∨ (((jslength newVal < jslength oldVal)%nat
               ∨ ∀ x, x ∈ units newVal -> x ∈ units oldVal)
              ∧ last (units newVal) = Some ch)).
Proof.
  intros Hlen Hbmp. unfold jslength in *.
  assert (∃ ch, last (units newVal) = Some ch) as [lst Hlst].
  { apply (proj2 (last_is_Some _)). intros E. rewrite E in Hlen.
    simpl in Hlen. lia. }
  unfold diff, codePoints, jslength. rewrite Hlst, (codePointsOf_bmp _ Hbmp).
  destruct (Nat.leb_spec (length (units oldVal)) (length (units newVal))) as [Hle|Hlt].
  - destruct (List.find _ _) as [l|] eqn:Hfind.
    + apply find_first in Hfind as (pre & post & Heq & Hch & Hpre).
      apply fmap_app_inv in Heq as (pre' & rest & -> & Hrest & Heq).
      symmetry in Hrest. apply fmap_cons_inv in Hrest as (ch & post' & -> & -> & ->).
      exists ch. split; [done|]. left. split; [done|].
      exists pre', post'. split; [done|].
      apply negb_true_iff in Hch. split.
      * intros Hin. apply includes_unit in Hin. congruence.
      * intros x Hx.
        specialize (Hpre (JS [x]) (list_elem_of_fmap_2 _ _ _ Hx)).
        apply negb_false_iff in Hpre. by apply includes_unit.
    + exists lst. split; [done|]. right. split; [|done]. right.
      intros x Hx.
      pose proof (find_nothing _ _ Hfind (JS [x]) (list_elem_of_fmap_2 _ _ _ Hx)) as Hf.
      apply negb_false_iff in Hf. by apply includes_unit.
  - exists lst. split; [done|]. right. split; [by left|done].
Qed.

(** On an input that is not empty [diff] gives a string. *)
Lemma diff_is_Some (oldVal newVal : string) :
  (0 < jslength newVal)%nat -> is_Some (diff oldVal newVal).
Proof.
  intros Hlen. unfold jslength in Hlen.
  assert (∃ ch, last (units newVal) = Some ch) as [lst Hlst].
  { apply (proj2 (last_is_Some _)). intros E. rewrite E in Hlen.
    simpl in Hlen. lia. }
  unfold diff. rewrite Hlst. simpl.
  destruct (_ <=? _)%nat; [|by eexists].
  destruct (List.find _ _); by eexists.
Qed.

Lemma cellAt_run cs r c row s :
  at_ cs r = Some row -> cellAt cs r c s = (s, Some (at_ row c)).
Proof. unfold cellAt. by intros ->. Qed.

(** The edit up to its call of [validate]: the cell has its new value and
    guess, and the edit is in the undo log. *)
Lemma cellValCallback_run s r c v row l cell0 :
  at_ (cells (config s)) r = Some row ->
  at_ row c = Some l ->
  store s !! l = Some cell0 ->
  let g := if decide (v = "") then -1 else currGuess s in
  ∀ small,
    (if g =? -1 then Some false
     else isSmall <$> at_ (guesses (config s)) g) = Some small ->
    let nv := if (1 <? jslength v)%nat && negb small
              then match diff (val cell0) v with
                   | Some ch => ch
                   | None => ""
                   end
              else if small then sort_chars v else v in
    ∃ p, handle (fun render => cellValCallback render r c v) s
         = validate s (Some (config s)) p
         ∧ store p = <[l := mkCell nv g (group cell0) (color cell0) (error cell0)]> (store s)
         ∧ config p = config s
         ∧ currGuess p = currGuess s
         ∧ undoHistory p
           = slice (undoHistory s) 0 (undoIndex s + 1)
             ++ [UndoDiff (r, c) (val cell0) nv]
         ∧ undoIndex p = undoIndex s + 1.
Proof.
  intros Hrow Hcell Hl g small Hsmall nv.
  unfold handle, cellValCallback.
  set (timer := if negb (timerStarted s) && (currGuess s =? 1)
                   && negb (bool_decide (type (config s) = TOther))
                then true else timerStarted s).
  set (s1 := mkState (config s) (store s) (currGuess s) (validationState s)
               timer (undoHistory s) (undoIndex s) (alerts s)).
  rewrite (bind_run _ _ s s1 tt); cycle 1.
  { subst s1 timer. destruct (_ && _ && _); [done|]. by destruct s. }
  rewrite (bind_run _ _ _ _ _ (cellAt_run _ r c row s1 Hrow)), Hcell.
  rewrite (bind_run _ _ _ _ _ (readCell_run val l cell0 s1 Hl)).
  fold g.
  rewrite (bind_run _ _ s1 s1 small); cycle 1.
  { destruct (g =? -1); [by injection Hsmall as <-|].
    destruct (at_ (guesses (config s)) g) as [style|]; [|done].
    simpl in *. by injection Hsmall as <-. }
  fold nv.
  rewrite (bind_run _ _ _ _ _ (writeCell_run (set_val nv) l cell0 s1 Hl)).
  erewrite bind_run; cycle 1.
  { apply writeCell_run. simpl. apply list_lookup_insert_eq.
    by eapply lookup_lt_Some. }
  simpl. rewrite list_insert_insert_eq.
  unfold setConfig at 1. unfold bind at 1. simpl.
  erewrite bind_run; cycle 1.
  { apply readCell_run. simpl. apply list_lookup_insert_eq.
    by eapply lookup_lt_Some. }
  simpl. erewrite bind_run; [|reflexivity].
  eexists. split; [reflexivity|]. simpl. done.
Qed.
End Edit.


(** C10 at its failing input: on the empty board with guess style 1
    current, which is not small, the character U+1F600 is typed in the top
    left cell, and then once more.  Both edits return.  The first input is
    the one character, two code units long: the cell takes it.  The second
    input is twice that character, four code units long, and each of its
    characters is in the previous value: the cell should take the last
    character of the input, U+1F600, but it takes the last code unit, the
    second half of the character, which is no character of the input. *)
Theorem cellValCallback_stores_half_a_character :
  let s0 := emptyBoard TDefault in
  let s1 := after (fun render => cellValCallback render 0 0 grin) s0 in
  let input := jsappend grin grin in
  let s2 := after (fun render => cellValCallback render 0 0 input) s1 in
  handle (fun render => cellValCallback render 0 0 grin) s0 = (s1, Some tt)
  ∧ handle (fun render => cellValCallback render 0 0 input) s1 = (s2, Some tt)
  ∧ (isSmall <$> at_ (guesses (config s1)) (currGuess s1) = Some false)
  ∧ val <$> store s1 !! 0%nat = Some grin
  ∧ (1 < jslength input)%nat
  ∧ codePoints input = [grin; grin]
  ∧ val <$> store s2 !! 0%nat = Some (JS [56832%N])
  ∧ (JS [56832%N] ∉ codePoints input)
  ∧ isLowSurrogate 56832 = true.
Proof.
  intros s0 s1 input s2.
  split; [vm_compute; reflexivity|]. split; [vm_compute; reflexivity|].
  split; [vm_compute; reflexivity|]. split; [vm_compute; reflexivity|].
  split; [vm_compute; lia|]. split; [vm_compute; reflexivity|].
  split; [vm_compute; reflexivity|]. split; [|reflexivity].
  apply (proj1 (bool_decide_eq_false _)). vm_compute. reflexivity.
Qed.

(** An edit with a guess style that is not small and an input of more than
    one code unit, none of them a surrogate, stores one code unit: the first
    of the input that is not in the previous value when the input is at
    least as long as the previous value and has such a code unit, and the
    last of the input otherwise.  An edit to the empty string sets the guess
    of the cell to -1.  Both hold in the state that the handler leaves,
    whether or not its validation throws. *)
Theorem cellValCallback_stores_one_character
    (s : State) (r c : Z) (v : string) (row : list loc) (l : loc) (cell0 : Cell) :
  at_ (cells (config s)) r = Some row ->
  at_ row c = Some l ->
  store s !! l = Some cell0 ->
  let s' := after (fun render => cellValCallback render r c v) s in
  ((1 < jslength v)%nat ->
   bmp v ->
   (∃ style, at_ (guesses (config s)) (currGuess s) = Some style
             ∧ isSmall style = false) ->
   ∃ cell' ch,
     store s' !! l = Some cell'
     ∧ val cell' = JS [ch]
     ∧ guess cell' = currGuess s
     ∧ (((jslength (val cell0) <= jslength v)%nat
         ∧ ∃ pre post, units v = pre ++ ch :: post
                       ∧ (ch ∉ units (val cell0))
                       ∧ (∀ x, x ∈ pre -> x ∈ units (val cell0)))
        ∨ (((jslength v < jslength (val cell0))%nat
            ∨ ∀ x, x ∈ units v -> x ∈ units (val cell0))
           ∧ last (units v) = Some ch)))
  ∧ (v = "" ->
     ∃ cell', store s' !! l = Some cell' ∧ guess cell' = -1 ∧ val cell' = "").
Proof.
  intros Hrow Hcell Hl s'. split.
  - intros Hlen Hbmp (style & Hstyle & Hsmall).
    assert (v ≠ "") as Hv by (intros ->; vm_compute in Hlen; lia).
    assert (currGuess s ≠ -1) as Hg.
    { intros E. rewrite E in Hstyle. done. }
    destruct (cellValCallback_run s r c v row l cell0 Hrow Hcell Hl false)
      as (p & Hrun & Hstore & _).
    { rewrite decide_False by done.
      destruct (Z.eqb_spec (currGuess s) (-1)); [done|].
      by rewrite Hstyle; simpl; rewrite Hsmall. }
    destruct (diff_spec (val cell0) v) as (ch & Hdiff & Hch); [lia|done|].
    destruct (validate_frame s (Some (config s)) p) as [Hdata _].
    subst s'. unfold after. rewrite Hrun.
    destruct (data_eq_lookup _ _ l
                (mkCell (JS [ch]) (currGuess s) (group cell0) (color cell0)
                   (error cell0)) Hdata)
      as (cell' & Hcell' & (Hval & Hguess & _)%same_data_fields).
    { rewrite Hstore, list_lookup_insert_eq by (by eapply lookup_lt_Some).
      rewrite decide_False by done. rewrite Hdiff.
      by rewrite (proj2 (Nat.ltb_lt _ _) Hlen). }
    exists cell', ch. simpl in *. split; [done|].
    rewrite <-Hval. split; [done|]. split; [done|]. done.
  - intros ->.
    destruct (cellValCallback_run s r c "" row l cell0 Hrow Hcell Hl false)
      as (p & Hrun & Hstore & _); [done|].
    destruct (validate_frame s (Some (config s)) p) as [Hdata _].
    subst s'. unfold after. rewrite Hrun.
    destruct (data_eq_lookup _ _ l
                (mkCell "" (-1) (group cell0) (color cell0) (error cell0)) Hdata)
      as (cell' & Hcell' & (Hval & Hguess & _)%same_data_fields).
    { by rewrite Hstore, list_lookup_insert_eq by (by eapply lookup_lt_Some). }
    exists cell'. simpl in *. done.
Qed.

(** On the solved board the cell at the top left holds "5".  Typing "3"
    after it makes the input "53": the cell takes "3".  Deleting the
    input makes the guess -1. *)
Lemma cellValCallback_stores_one_character_witness :
  let s := board9 TDefault 1 solvedVals in
  (∃ cell', store (after (fun render => cellValCallback render 0 0 "53") s) !! 0%nat
            = Some cell'
            ∧ val cell' = "3")
  ∧ (∃ cell', store (after (fun render => cellValCallback render 0 0 "") s) !! 0%nat
              = Some cell'
              ∧ guess cell' = -1).
Proof.
  intros s. split.
  - destruct (cellValCallback_stores_one_character s 0 0 "53"
                (seq 0 9) 0%nat (mkCell "5" 1 0 None false))
      as [H _]; [reflexivity..|].
    destruct H as (cell' & ch & Hcell & Hval & _ & Hch).
    + vm_compute. lia.
    + repeat constructor.
    + eexists. split; reflexivity.
    + exists cell'. split; [exact Hcell|]. rewrite Hval.
      destruct Hch as [(_ & pre & post & Heq & Hnew & Hpre)|[[Hlt|Hall] _]].
      * destruct pre as [|x pre].
        -- injection Heq as <- _. exfalso. apply Hnew. compute_done.
        -- injection Heq as <- Heq. destruct pre as [|y pre].
           ++ by injection Heq as <- _.
           ++ injection Heq as _ Heq. by destruct pre.
      * vm_compute in Hlt. lia.
      * exfalso.
        assert (51%N ∉ units "5") as Hn
          by (apply (proj1 (bool_decide_eq_false _)); by vm_compute).
        apply Hn, (Hall 51%N). compute_done.
  - destruct (cellValCallback_stores_one_character s 0 0 ""
                (seq 0 9) 0%nat (mkCell "5" 1 0 None false))
      as [_ H]; [reflexivity..|].
    destruct H as (cell' & Hcell & Hguess & _); [reflexivity|].
    exists cell'. split; [exact Hcell|exact Hguess].
Defined.

(** ** The undo log *)

Section Log.
Lemma keeps_log_ret {A} (a : A) : keeps_log (ret a).
Proof. done. Qed.

Lemma keeps_log_bind {A B} (m : M A) (k : A -> M B) :
  keeps_log m -> (∀ a, keeps_log (k a)) -> keeps_log (bind m k).
Proof.
  intros Hm Hk s. unfold bind. destruct (Hm s) as [H1 H2].
  destruct (m s) as [s1 [a|]]; [|done].
  destruct (Hk a s1) as [H3 H4]. simpl in *. split; congruence.
Qed.

Lemma keeps_log_defined {A} (o : option A) : keeps_log (defined o).
Proof. by destruct o. Qed.

Lemma keeps_log_readCell {A} (f : Cell -> A) cell : keeps_log (readCell f cell).
Proof. done. Qed.

Lemma keeps_log_writeCell f cell : keeps_log (writeCell f cell).
Proof.
  intros s. unfold writeCell. destruct cell as [l|]; [|done]. simpl.
  by destruct (store s !! l).
Qed.

Lemma keeps_log_setConfig c : keeps_log (setConfig c).
Proof. done. Qed.

Lemma keeps_log_cellAt cs r c : keeps_log (cellAt cs r c).
Proof.
  unfold cellAt. apply keeps_log_bind; [apply keeps_log_defined|done].
Qed.

Lemma keeps_log_validate render c : keeps_log (validate render c).
Proof. intros s. by destruct (validate_frame render c s) as (_ & ? & ? & _). Qed.

Lemma keeps_log_focusCell render r c : keeps_log (focusCell render r c).
Proof.
  unfold focusCell, cellOrDiv.
  repeat first [ apply keeps_log_cellAt | apply keeps_log_readCell
               | apply keeps_log_defined | apply keeps_log_ret
               | match goal with |- keeps_log (if ?b then _ else _) => destruct b end
               | apply keeps_log_bind; [|intros ?] ].
Qed.

Lemma then_setUndoIndex_log (body : M unit) (i : Z) s :
  keeps_log body ->
  undoHistory (bind body (fun _ => setUndoIndex i) s).1 = undoHistory s
  ∧ (undoIndex (bind body (fun _ => setUndoIndex i) s).1 = undoIndex s
     ∨ undoIndex (bind body (fun _ => setUndoIndex i) s).1 = i).
Proof.
  intros Hbody. unfold bind. destruct (Hbody s) as [H1 H2].
  destruct (body s) as [s1 [[]|]]; simpl in *.
  - split; [done|by right].
  - split; [done|by left].
Qed.

(** [undo] leaves the log as it is and moves the cursor down by one, or
    not at all. *)
Lemma undo_log s :
  undoHistory (after undo s) = undoHistory s
  ∧ (undoIndex (after undo s) = undoIndex s
     ∨ (-1 < undoIndex s ∧ undoIndex (after undo s) = undoIndex s - 1)).
Proof.
  unfold after, handle, undo.
  destruct (Z.ltb_spec (-1) (undoIndex s)) as [Hlt|Hge]; [|by split; [|left]].
  destruct (at_ (undoHistory s) (undoIndex s)) as [rec|].
  - rewrite (bind_run _ _ s s rec eq_refl).
    match goal with
    | |- context [bind ?body (fun _ => setUndoIndex ?i) s] =>
        destruct (then_setUndoIndex_log body i s) as [Hh Hi]
    end.
    + destruct rec as [prevCells newCells|[r c] prevVal newVal].
      * apply keeps_log_bind; [apply keeps_log_setConfig|intros _].
        apply keeps_log_validate.
      * cbv zeta.
        repeat first [ apply keeps_log_cellAt | apply keeps_log_writeCell
                     | apply keeps_log_setConfig | apply keeps_log_validate
                     | apply keeps_log_focusCell
                     | apply keeps_log_bind; [|intros ?] ].
    + split; [done|]. destruct Hi as [Hi|Hi]; [by left|right; by split].
  - rewrite (bind_throw _ _ s s eq_refl). by split; [|left].
Qed.

Lemma undo_keeps_inv s : undo_inv s -> undo_inv (after undo s).
Proof.
  unfold undo_inv. destruct (undo_log s) as [-> [->|[Hlt ->]]]; lia.
Qed.

Lemma repeatedly_undo_inv n s : undo_inv s -> undo_inv (repeatedly undo n s).
Proof.
  revert s. induction n as [|n IH]; intros s H; simpl; [done|].
  by apply IH, undo_keeps_inv.
Qed.

(** With the cursor at the last record [redo] does nothing. *)
Lemma redo_at_end s :
  undoIndex s = Z.of_nat (length (undoHistory s)) - 1 ->
  handle redo s = (s, Some tt).
Proof.
  intros H. unfold handle, redo.
  destruct (Z.ltb_spec (undoIndex s) (Z.of_nat (length (undoHistory s)) - 1));
    [lia|done].
Qed.

(** The log after a new record. *)
Lemma slice_cursor {A} (h : list A) (i : Z) :
  -1 <= i < Z.of_nat (length h) ->
  slice h 0 (i + 1) = take (Z.to_nat (i + 1)) h
  ∧ Z.of_nat (length (take (Z.to_nat (i + 1)) h)) = i + 1.
Proof.
  intros Hi. unfold slice, rel_index.
  change (0 <? 0) with false. cbv iota.
  rewrite (Z.min_l 0) by lia.
  destruct (Z.ltb_spec (i + 1) 0); [lia|].
  rewrite Z.min_l by lia. change (Z.to_nat 0) with 0%nat.
  rewrite drop_0, Z.sub_0_r. split; [done|].
  rewrite length_take. lia.
Qed.

Lemma recorded_at_end s s2 (rec : UndoRecord) :
  undo_inv s ->
  undoHistory s2 = slice (undoHistory s) 0 (undoIndex s + 1) ++ [rec] ->
  undoIndex s2 = undoIndex s + 1 ->
  undoHistory s2 = take (Z.to_nat (undoIndex s + 1)) (undoHistory s) ++ [rec]
  ∧ at_ (undoHistory s2) (undoIndex s2) = Some rec
  ∧ Z.of_nat (length (undoHistory s2)) = undoIndex s2 + 1
  ∧ handle redo s2 = (s2, Some tt).
Proof.
  intros Hinv Hh Hi. destruct (slice_cursor _ _ Hinv) as [Hs Hl].
  rewrite Hs in Hh. split; [done|].
  assert (Z.of_nat (length (undoHistory s2)) = undoIndex s2 + 1) as Hlen.
  { rewrite Hh, length_app. simpl. lia. }
  split; [|split; [done|apply redo_at_end; lia]].
  unfold at_. destruct (Z.ltb_spec (undoIndex s2) 0); [unfold undo_inv in Hinv; lia|].
  rewrite Hh, Hi. rewrite lookup_app_r by lia.
  replace (Z.to_nat (undoIndex s + 1) - length (take (Z.to_nat (undoIndex s + 1)) (undoHistory s)))%nat
    with 0%nat by lia.
  done.
Qed.
End Log.

(** ** Clearing a guess *)

Section ClearGuess.
Lemma jsonCopy_row (row : list loc) s :
  (∀ l, l ∈ row -> is_Some (store s !! l)) ->
  ∃ extra P,
    mapM (fun l => c <- readCell id (Some l) ;; allocCell c) row s
    = (with_store s (store s ++ extra), Some P).
Proof.
  revert s. induction row as [|l row IH]; intros s Hrow.
  - exists [], []. simpl. by rewrite app_nil_r, with_store_id.
  - destruct (Hrow l) as [c Hc]; [by left|]. simpl.
    rewrite (bind_run _ _ s (with_store s (store s ++ [c])) (length (store s))); cycle 1.
    { by rewrite (bind_run _ _ _ _ _ (readCell_run id l c s Hc)). }
    destruct (IH (with_store s (store s ++ [c]))) as (extra & P & Hrun).
    { intros l' Hl'. simpl. destruct (Hrow l') as [c' Hc']; [by right|].
      exists c'. by apply lookup_app_l_Some. }
    rewrite (bind_run _ _ _ _ _ Hrun). simpl.
    exists (c :: extra), (length (store s) :: P).
    by rewrite <-app_assoc.
Qed.

Lemma jsonCopy_run (cs : list (list loc)) s :
  (∀ l, l ∈ concat cs -> is_Some (store s !! l)) ->
  ∃ extra P, jsonCopy cs s = (with_store s (store s ++ extra), Some P).
Proof.
  unfold jsonCopy. revert s. induction cs as [|row cs IH]; intros s Hcs.
  - exists [], []. simpl. by rewrite app_nil_r, with_store_id.
  - simpl in *. destruct (jsonCopy_row row s) as (extra1 & P1 & Hrun1).
    { intros l Hl. apply Hcs, elem_of_app. by left. }
    rewrite (bind_run _ _ _ _ _ Hrun1).
    destruct (IH (with_store s (store s ++ extra1))) as (extra & P & Hrun).
    { intros l Hl. simpl. destruct (Hcs l) as [c Hc].
      - apply elem_of_app. by right.
      - exists c. by apply lookup_app_l_Some. }
    rewrite (bind_run _ _ _ _ _ Hrun). simpl.
    exists (extra1 ++ extra), (P1 :: P). by rewrite <-app_assoc.
Qed.

Lemma clearGuess_cell i l c s :
  store s !! l = Some c ->
  (g <- readCell guess (Some l) ;;
   if g =? i then
     writeCell (set_val "") (Some l) ;; writeCell (set_guess (-1)) (Some l)
   else ret tt) s
  = (with_store s (<[l := clearCell i c]> (store s)), Some tt).
Proof.
  intros Hl. rewrite (bind_run _ _ _ _ _ (readCell_run guess l c s Hl)).
  unfold clearCell. destruct (guess c =? i).
  - rewrite (bind_run _ _ _ _ _ (writeCell_run _ _ _ _ Hl)).
    erewrite writeCell_run; cycle 1.
    { simpl. apply list_lookup_insert_eq. by eapply lookup_lt_Some. }
    simpl. by rewrite list_insert_insert_eq.
  - by rewrite list_insert_id, with_store_id.
Qed.

Lemma clearCell_idem i c : clearCell i (clearCell i c) = clearCell i c.
Proof.
  unfold clearCell. destruct (guess c =? i) eqn:Hg.
  - cbn [guess set_guess set_val val group color error].
    by destruct (-1 =? i).
  - by rewrite Hg.
Qed.

(** The bulk edit up to its call of [validate]. *)
Lemma clearGuess_run s i :
  (∀ l, l ∈ docLocs (config s) -> is_Some (store s !! l)) ->
  ∃ p P, handle (fun render => clearGuess render i) s
         = validate s (Some (config s)) p
         ∧ config p = config s
         ∧ currGuess p = currGuess s
         ∧ undoHistory p
           = slice (undoHistory s) 0 (undoIndex s + 1)
             ++ [UndoFull P (cells (config s))]
         ∧ undoIndex p = undoIndex s + 1.
Proof.
  intros Hdoc. unfold handle, clearGuess.
  destruct (jsonCopy_run (cells (config s)) s Hdoc) as (extra & P & Hcopy).
  rewrite (bind_run _ _ _ _ _ Hcopy).
  destruct (forM__pointwise _ (clearCell i) (docLocs (config s))
              (with_store s (store s ++ extra)) (clearGuess_cell i))
    as (st' & Hrun & _).
  { right. apply clearCell_idem. }
  { intros l Hl. destruct (Hdoc l Hl) as [c Hc]. exists c. simpl.
    by apply lookup_app_l_Some. }
  unfold docLocs in Hrun. rewrite <-forM__concat in Hrun.
  rewrite (bind_run _ _ _ _ _ Hrun).
  erewrite bind_run; [|reflexivity].
  erewrite bind_run; [|reflexivity].
  eexists _, P. split; [reflexivity|]. done.
Qed.
End ClearGuess.

(** C9: a new edit, whether it records a diff ([cellValCallback]) or a full
    snapshot ([clearGuess]), cuts the log after the cursor, appends its
    record and moves the cursor to it; so after any number [n] of undos and
    a new edit, [redo] does nothing: it returns with the state, and with it
    the document, unchanged. *)
Theorem new_edit_truncates_redo (s : State) (n : nat) :
  undo_inv s ->
  let s1 := repeatedly undo n s in
  (∀ r c v row l cell0,
     at_ (cells (config s1)) r = Some row ->
     at_ row c = Some l ->
     store s1 !! l = Some cell0 ->
     v = "" ∨ is_Some (at_ (guesses (config s1)) (currGuess s1)) ->
     let s2 := after (fun render => cellValCallback render r c v) s1 in
     ∃ newVal,
       undoHistory s2
       = take (Z.to_nat (undoIndex s1 + 1)) (undoHistory s1)
         ++ [UndoDiff (r, c) (val cell0) newVal]
       ∧ undoIndex s2 = undoIndex s1 + 1
       ∧ at_ (undoHistory s2) (undoIndex s2)
         = Some (UndoDiff (r, c) (val cell0) newVal)
       ∧ handle redo s2 = (s2, Some tt))
  ∧ (∀ i,
       (∀ l, l ∈ docLocs (config s1) -> is_Some (store s1 !! l)) ->
       let s2 := after (fun render => clearGuess render i) s1 in
       ∃ prevCells,
         undoHistory s2
         = take (Z.to_nat (undoIndex s1 + 1)) (undoHistory s1)
           ++ [UndoFull prevCells (cells (config s1))]
         ∧ undoIndex s2 = undoIndex s1 + 1
         ∧ at_ (undoHistory s2) (undoIndex s2)
           = Some (UndoFull prevCells (cells (config s1)))
         ∧ handle redo s2 = (s2, Some tt)).
Proof.
  intros Hinv s1.
  assert (undo_inv s1) as Hinv1 by (by apply repeatedly_undo_inv).
  clearbody s1. split.
  - intros r c v row l cell0 Hrow Hcell Hl Hstyle s2.
    assert (∃ small,
              (if (if decide (v = "") then -1 else currGuess s1) =? -1
               then Some false
               else isSmall <$> at_ (guesses (config s1))
                                    (if decide (v = "") then -1 else currGuess s1))
              = Some small) as [small Hsmall].
    { destruct (decide (v = "")) as [->|Hv]; [by eexists|].
      destruct (_ =? -1); [by eexists|].
      destruct Hstyle as [?|[style ->]]; [done|by eexists]. }
    destruct (cellValCallback_run s1 r c v row l cell0 Hrow Hcell Hl small Hsmall)
      as (p & Hrun & _ & _ & _ & Hh & Hi).
    destruct (keeps_log_validate s1 (Some (config s1)) p) as [Hh' Hi'].
    subst s2. unfold after. rewrite Hrun.
    rewrite <-Hh' in Hh. rewrite <-Hi' in Hi.
    destruct (recorded_at_end s1 _ _ Hinv1 Hh Hi) as (Ha & Hb & _ & Hc).
    eexists. split; [exact Ha|]. split; [exact Hi|]. split; [exact Hb|exact Hc].
  - intros i Hdoc s2.
    destruct (clearGuess_run s1 i Hdoc) as (p & P & Hrun & _ & _ & Hh & Hi).
    destruct (keeps_log_validate s1 (Some (config s1)) p) as [Hh' Hi'].
    subst s2. unfold after. rewrite Hrun.
    rewrite <-Hh' in Hh. rewrite <-Hi' in Hi.
    destruct (recorded_at_end s1 _ _ Hinv1 Hh Hi) as (Ha & Hb & _ & Hc).
    exists P. split; [exact Ha|]. split; [exact Hi|]. split; [exact Hb|exact Hc].
Qed.

(** On the board with one recorded edit: after one undo and a new edit of
    the next cell, the log holds the new record alone and [redo] does
    nothing. *)
Lemma new_edit_truncates_redo_witness :
  let s1 := repeatedly undo 1 editedBoard in
  let s2 := after (fun render => cellValCallback render 0 1 "7") s1 in
  undoIndex s2 = 0 ∧ length (undoHistory s2) = 1%nat
  ∧ handle redo s2 = (s2, Some tt).
Proof.
  intros s1 s2.
  destruct (new_edit_truncates_redo editedBoard 1) as [Hdiff _].
  { unfold undo_inv. simpl. lia. }
  destruct (Hdiff 0 1 "7" (seq 0 9) 1%nat (mkCell "" (-1) 0 None false))
    as (newVal & Hh & Hi & _ & Hredo).
  - vm_compute. reflexivity.
  - reflexivity.
  - vm_compute. reflexivity.
  - right. vm_compute. by eexists.
  - fold s1 s2 in Hh, Hi, Hredo. split; [|split; [|exact Hredo]].
    + rewrite Hi. vm_compute. reflexivity.
    + rewrite Hh. vm_compute. reflexivity.
Defined.

(** ** The uniqueness check *)

Section Unique.






Variable c : Config.


Variable small : Cell -> bool.



End Unique.



(** The [Cell] component draws the wildcards small. *)
Lemma wildcard_drawn (c : Config) (s : State) (cell : Cell) (b : bool) :
  cellIsSmall c (currGuess s) cell = Some b -> wildcard c s cell = b.
Proof.
  unfold cellIsSmall, wildcard, activeGuess.
  destruct (Z.eqb_spec (guess cell) (-1)) as [Hg|Hg]; simpl.
  - destruct (Z.eqb_spec (currGuess s) (-1)) as [->|Hc]; simpl.
    + by intros [= <-].
    + destruct (at_ (guesses c) (currGuess s)); simpl; [by intros [= <-]|done].
  - destruct (at_ (guesses c) (guess cell)); simpl; [by intros [= <-]|done].
Qed.





(** ** Undo and redo *)

Section RoundTrip.
Lemma set_cells_id c : set_cells c (cells c) = c.
Proof. by destruct c. Qed.

Lemma set_cells_twice c cs1 cs2 : set_cells (set_cells c cs1) cs2 = set_cells c cs2.
Proof. done. Qed.

Lemma validate_config render c p s' :
  validate render (Some c) p = (s', Some tt) -> config p = c -> config s' = c.
Proof.
  unfold validate. destruct (decide (type c = TOther)).
  - unfold ret. by intros [= <-].
  - intros H _. by eapply validateBody_config.
Qed.

Lemma reads_only_bind {A B} (m : M A) (k : A -> M B) :
  reads_only m -> (∀ a, reads_only (k a)) -> reads_only (bind m k).
Proof.
  intros Hm Hk s. unfold bind. specialize (Hm s).
  destruct (m s) as [s1 [a|]]; simpl in *; subst s1; [apply Hk|done].
Qed.

Lemma reads_only_defined {A} (o : option A) : reads_only (defined o).
Proof. by destruct o. Qed.

Lemma focusCell_state render r c s : (focusCell render r c s).1 = s.
Proof.
  revert s. change (reads_only (focusCell render r c)).
  unfold focusCell, cellOrDiv, cellAt.
  repeat first [ apply reads_only_defined
               | match goal with
                 | |- reads_only (ret _) => by intros ?
                 | |- reads_only (readCell _ _) => by intros ?
                 | |- reads_only (if ?b then _ else _) => destruct b
                 end
               | apply reads_only_bind; [|intros ?] ].
Qed.

(** Giving the focus to a cell whose guess is -1 or the current guess. *)
Lemma focusCell_run render r c s row l cell :
  at_ (cells (config render)) r = Some row ->
  at_ row c = Some l ->
  store s !! l = Some cell ->
  guess cell = -1 ∨ guess cell = currGuess render ->
  focusCell render r c s = (s, Some tt).
Proof.
  intros Hrow Hcell Hl Hg.
  assert (cellOrDiv render r c s = (s, Some "cell")) as Htag.
  { unfold cellOrDiv.
    rewrite (bind_run _ _ s s (at_ row c)) by (by apply cellAt_run).
    rewrite Hcell.
    rewrite (bind_run _ _ _ _ _ (readCell_run guess l cell s Hl)).
    assert (negb (guess cell =? -1) && negb (currGuess render =? guess cell)
            = false) as ->.
    { destruct Hg as [->| ->]; [done|].
      rewrite Z.eqb_refl. by rewrite andb_false_r. }
    done. }
  unfold focusCell. by rewrite (bind_run _ _ _ _ _ Htag).
Qed.

Lemma same_data_set_val v c1 c2 :
  same_data c1 c2 -> same_data (set_val v c1) (set_val v c2).
Proof.
  intros (? & ? & ? & ?)%same_data_fields. unfold same_data, set_error, set_val.
  simpl. congruence.
Qed.

Lemma set_val_twice v w c : set_val v (set_val w c) = set_val v c.
Proof. done. Qed.

Lemma set_val_same c : set_val (val c) c = c.
Proof. by destruct c. Qed.

(** The document is read off the configuration and the cells of the
    document. *)
Lemma document_eq s1 s2 :
  config s1 = config s2 ->
  (∀ l, l ∈ docLocs (config s1) -> store s1 !! l = store s2 !! l) ->
  document s1 = document s2.
Proof.
  intros Hc Hl. unfold document. rewrite <-Hc. f_equal.
  apply map_ext_in. intros row Hrow%list_elem_of_In.
  apply map_ext_in. intros l Hin%list_elem_of_In.
  apply Hl. unfold docLocs. apply list_elem_of_In, in_concat.
  exists row. split; by apply list_elem_of_In.
Qed.

(** To validate again the document that was validated before, on a store
    that differs in error flags only, gives the document that the first
    validation gave. *)
Lemma validate_again render1 render3 c p1 p3 s1 :
  validate render1 (Some c) p1 = (s1, Some tt) ->
  config p1 = c -> config p3 = c ->
  data_eq (store p1) (store p3) ->
  (type c = TOther -> store p3 = store p1) ->
  ∃ s3, validate render3 (Some c) p3 = (s3, Some tt)
        ∧ document s3 = document s1
        ∧ errors_apart p3 s3.
Proof.
  intros Hrun Hc1 Hc3 Hdata Hother.
  pose proof (validate_frame render3 (Some c) p3) as Hframe.
  unfold validate in *. destruct (decide (type c = TOther)) as [Hty|Hty].
  - unfold ret in Hrun. injection Hrun as <-. exists p3. split; [done|]. split; [|done].
    apply document_eq; [congruence|]. intros l _. by rewrite Hother.
  - destruct (validateBody_agree c p1 p3 Hdata) as [Hres Hag].
    rewrite Hrun in Hres, Hag. simpl in *.
    destruct (validateBody c p3) as [s3 r3] eqn:E3. simpl in *. subst r3.
    exists s3. split; [done|]. split; [|done].
    destruct (Hag eq_refl) as [_ Hl].
    pose proof (validateBody_config c p1 s1 Hrun) as Hcs1.
    pose proof (validateBody_config c p3 s3 E3) as Hcs3.
    apply document_eq; [congruence|]. intros l Hin.
    symmetry. apply Hl. by rewrite <-Hcs3.
Qed.
End RoundTrip.

Section UndoRedoSteps.
Lemma undo_full_inv s1 s2 P L :
  -1 < undoIndex s1 ->
  at_ (undoHistory s1) (undoIndex s1) = Some (UndoFull P L) ->
  handle undo s1 = (s2, Some tt) ->
  ∃ sX, validate s1 (Some (set_cells (config s1) P))
          (setConfig (set_cells (config s1) P) s1).1 = (sX, Some tt)
        ∧ s2 = (setUndoIndex (undoIndex s1 - 1) sX).1.
Proof.
  intros Hidx Hat. unfold handle, undo.
  rewrite (proj2 (Z.ltb_lt _ _) Hidx), Hat.
  rewrite (bind_run _ _ s1 s1 _ eq_refl).
  intros ([] & sX & Hbody & Hset)%bind_ok.
  rewrite (bind_run _ _ s1 _ tt eq_refl) in Hbody.
  exists sX. split; [done|]. by injection Hset as <-.
Qed.

Lemma redo_full_run s2 P L :
  undoIndex s2 < Z.of_nat (length (undoHistory s2)) - 1 ->
  at_ (undoHistory s2) (undoIndex s2 + 1) = Some (UndoFull P L) ->
  handle redo s2
  = validate s2 (Some (set_cells (config s2) L))
      (setConfig (set_cells (config s2) L)
         (setUndoIndex (undoIndex s2 + 1) s2).1).1.
Proof.
  intros Hidx Hat. unfold handle, redo.
  rewrite (proj2 (Z.ltb_lt _ _) Hidx).
  rewrite (bind_run _ _ s2 _ tt eq_refl).
  rewrite Hat. rewrite (bind_run _ _ _ _ _ eq_refl).
  by rewrite (bind_run _ _ _ _ tt eq_refl).
Qed.

Lemma undo_diff_inv s1 s2 r c pv nv row l cell1 :
  -1 < undoIndex s1 ->
  at_ (undoHistory s1) (undoIndex s1) = Some (UndoDiff (r, c) pv nv) ->
  at_ (cells (config s1)) r = Some row ->
  at_ row c = Some l ->
  store s1 !! l = Some cell1 ->
  handle undo s1 = (s2, Some tt) ->
  ∃ sX, validate s1 (Some (config s1))
          (with_store s1 (<[l := set_val pv cell1]> (store s1))) = (sX, Some tt)
        ∧ s2 = (setUndoIndex (undoIndex s1 - 1) sX).1.
Proof.
  intros Hidx Hat Hrow Hcell Hl. unfold handle, undo.
  rewrite (proj2 (Z.ltb_lt _ _) Hidx), Hat.
  rewrite (bind_run _ _ s1 s1 _ eq_refl).
  intros ([] & sX & Hbody & Hset)%bind_ok.
  rewrite (bind_run _ _ _ _ _ (cellAt_run _ r c row s1 Hrow)), Hcell in Hbody.
  rewrite (bind_run _ _ _ _ _ (writeCell_run (set_val pv) l cell1 s1 Hl)) in Hbody.
  rewrite set_cells_id in Hbody.
  rewrite (bind_run _ _ _ _ tt eq_refl) in Hbody.
  apply bind_ok in Hbody as ([] & sV & Hval & Hfocus).
  pose proof (focusCell_state s1 r c sV) as Hst.
  rewrite Hfocus in Hst. simpl in Hst. subst sX.
  exists sV. split; [exact Hval|by injection Hset as <-].
Qed.

Lemma redo_diff_run s2 r c pv nv row l cell2 :
  undoIndex s2 < Z.of_nat (length (undoHistory s2)) - 1 ->
  at_ (undoHistory s2) (undoIndex s2 + 1) = Some (UndoDiff (r, c) pv nv) ->
  at_ (cells (config s2)) r = Some row ->
  at_ row c = Some l ->
  store s2 !! l = Some cell2 ->
  handle redo s2
  = bind (validate s2 (Some (config s2))) (fun _ => focusCell s2 r c)
      (with_store (setUndoIndex (undoIndex s2 + 1) s2).1
         (<[l := set_val nv cell2]> (store s2))).
Proof.
  intros Hidx Hat Hrow Hcell Hl. unfold handle, redo.
  rewrite (proj2 (Z.ltb_lt _ _) Hidx).
  rewrite (bind_run _ _ s2 _ tt eq_refl).
  rewrite Hat. rewrite (bind_run _ _ _ _ _ eq_refl).
  rewrite (bind_run _ _ _ _ _ (cellAt_run _ r c row _ Hrow)), Hcell.
  erewrite bind_run; cycle 1.
  { apply writeCell_run. simpl. exact Hl. }
  rewrite set_cells_id.
  by rewrite (bind_run _ _ _ _ tt eq_refl).
Qed.
End UndoRedoSteps.

Section RoundTripCases.
Variables (s0 p1 s1 s2 : State).
Hypothesis Hinv : undo_inv s0.
Hypothesis Hedit : validate s0 (Some (config s0)) p1 = (s1, Some tt).
Hypothesis Hconfig : config p1 = config s0.
Hypothesis Hindex : undoIndex p1 = undoIndex s0 + 1.
Hypothesis Hundo : handle undo s1 = (s2, Some tt).

Lemma round_trip_full P :
  undoHistory p1
  = slice (undoHistory s0) 0 (undoIndex s0 + 1)
    ++ [UndoFull P (cells (config s0))] ->
  ∃ s3, handle redo s2 = (s3, Some tt)
        ∧ document s3 = document s1
        ∧ undoHistory s3 = undoHistory s1
        ∧ undoIndex s3 = undoIndex s1.
Proof.
  intros Hhist.
  pose proof (validate_config _ _ _ _ Hedit Hconfig) as Hc1.
  pose proof (validate_frame s0 (Some (config s0)) p1) as (Hd1 & Hh1 & Hi1 & _).
  rewrite Hedit in Hd1, Hh1, Hi1. simpl in *.
  rewrite Hhist in Hh1. rewrite Hindex in Hi1.
  destruct (recorded_at_end s0 s1 _ Hinv Hh1 Hi1) as (_ & Hat & Hlen & _).
  assert (-1 < undoIndex s1) as Hpos by (unfold undo_inv in Hinv; lia).
  destruct (undo_full_inv s1 s2 _ _ Hpos Hat Hundo) as (sX & HvalX & ->).
  pose proof (validate_frame s1 (Some (set_cells (config s1) P))
                (setConfig (set_cells (config s1) P) s1).1)
    as (HdX & HhX & HiX & _).
  rewrite HvalX in HdX, HhX, HiX. simpl in *.
  pose proof (validate_config _ _ _ _ HvalX eq_refl) as HcX.
  rewrite redo_full_run with (P := P) (L := cells (config s0)); cycle 1.
  { simpl. rewrite HhX. lia. }
  { simpl. rewrite HhX. by replace (undoIndex s1 - 1 + 1) with (undoIndex s1) by lia. }
  simpl. rewrite HcX, Hc1, set_cells_twice, set_cells_id.
  edestruct (validate_again s0) as (s3 & Hrun3 & Hdoc & _ & Hh3 & Hi3 & _);
    [exact Hedit|exact Hconfig| | | |].
  4:{ exists s3. split; [exact Hrun3|]. split; [exact Hdoc|].
      simpl in *. rewrite Hh3, Hi3, HhX. split; [done|lia]. }
  - done.
  - simpl. by eapply data_eq_trans.
  - intros Hty. simpl.
    unfold validate in Hedit, HvalX.
    rewrite decide_True in Hedit by done.
    rewrite decide_True in HvalX by (by rewrite Hc1).
    unfold ret in *. injection Hedit as <-. by injection HvalX as <-.
Qed.

Lemma round_trip_diff r c pv nv row l cellN :
  undoHistory p1
  = slice (undoHistory s0) 0 (undoIndex s0 + 1) ++ [UndoDiff (r, c) pv nv] ->
  at_ (cells (config s0)) r = Some row ->
  at_ row c = Some l ->
  store p1 !! l = Some cellN ->
  val cellN = nv ->
  guess cellN = -1 ∨ guess cellN = currGuess s0 ->
  currGuess p1 = currGuess s0 ->
  ∃ s3, handle redo s2 = (s3, Some tt)
        ∧ document s3 = document s1
        ∧ undoHistory s3 = undoHistory s1
        ∧ undoIndex s3 = undoIndex s1.
Proof.
  intros Hhist Hrow Hcell HlN Hval Hguess Hcurr.
  pose proof (validate_config _ _ _ _ Hedit Hconfig) as Hc1.
  pose proof (validate_frame s0 (Some (config s0)) p1) as (Hd1 & Hh1 & Hi1 & Hg1).
  rewrite Hedit in Hd1, Hh1, Hi1, Hg1. simpl in *.
  rewrite Hhist in Hh1. rewrite Hindex in Hi1.
  destruct (recorded_at_end s0 s1 _ Hinv Hh1 Hi1) as (_ & Hat & Hlen & _).
  assert (-1 < undoIndex s1) as Hpos by (unfold undo_inv in Hinv; lia).
  destruct (data_eq_lookup _ _ _ _ Hd1 HlN) as (cell1 & Hl1 & Hs1).
  rewrite <-Hc1 in Hrow.
  destruct (undo_diff_inv s1 s2 r c pv nv row l cell1 Hpos Hat Hrow Hcell Hl1 Hundo)
    as (sX & HvalX & ->).
  pose proof (validate_frame s1 (Some (config s1))
                (with_store s1 (<[l := set_val pv cell1]> (store s1))))
    as (HdX & HhX & HiX & HgX).
  rewrite HvalX in HdX, HhX, HiX, HgX. simpl in *.
  pose proof (validate_config _ _ _ _ HvalX eq_refl) as HcX.
  assert (<[l := set_val pv cell1]> (store s1) !! l = Some (set_val pv cell1))
    as Hl2 by (apply list_lookup_insert_eq; by eapply lookup_lt_Some).
  destruct (data_eq_lookup _ _ _ _ HdX Hl2) as (cell2 & HlX & Hs2).
  rewrite redo_diff_run with (r := r) (c := c) (pv := pv) (nv := nv)
                             (row := row) (l := l) (cell2 := cell2); cycle 1.
  { simpl. rewrite HhX. lia. }
  { simpl. rewrite HhX. by replace (undoIndex s1 - 1 + 1) with (undoIndex s1) by lia. }
  { simpl. by rewrite HcX. }
  { done. }
  { done. }
  simpl. rewrite HcX, Hc1.
  edestruct (validate_again s0 (setUndoIndex (undoIndex s1 - 1) sX).1)
    as (s3 & Hrun3 & Hdoc & Hd3 & Hh3 & Hi3 & Hg3);
    [exact Hedit|exact Hconfig| | | |].
  4:{ rewrite (bind_run _ _ _ _ _ Hrun3). simpl in *.
      assert (<[l := set_val nv cell2]> (store sX) !! l = Some (set_val nv cell2))
        as Hl3 by (apply list_lookup_insert_eq; by eapply lookup_lt_Some).
      destruct (data_eq_lookup _ _ _ _ Hd3 Hl3) as (cell3 & Hl3' & Hs3).
      exists s3. split.
      - eapply focusCell_run; [|exact Hcell|exact Hl3'|].
        + simpl. congruence.
        + simpl. rewrite HgX, Hg1, Hcurr.
          apply same_data_fields in Hs1 as (_ & Hq1 & _).
          apply same_data_fields in Hs2 as (_ & Hq2 & _).
          apply same_data_fields in Hs3 as (_ & Hq3 & _).
          simpl in *. by rewrite <-Hq3, <-Hq2, <-Hq1.
      - split; [exact Hdoc|]. rewrite Hh3, Hi3, HhX. split; [done|lia]. }
  - simpl. congruence.
  - simpl.
    rewrite <-(list_insert_id (store p1) l cellN HlN).
    rewrite <-(set_val_same cellN), Hval.
    eapply data_eq_trans.
    + apply data_eq_insert; [exact Hd1|].
      apply (same_data_set_val nv) in Hs1. exact Hs1.
    + rewrite <-(list_insert_insert_eq (store s1) l (set_val nv cell1)
                   (set_val pv cell1)).
      apply data_eq_insert; [exact HdX|].
      apply (same_data_set_val nv) in Hs2. exact Hs2.
  - intros Hty. simpl.
    unfold validate in Hedit, HvalX.
    rewrite decide_True in Hedit by done.
    rewrite decide_True in HvalX by (by rewrite Hc1).
    unfold ret in *. injection Hedit as <-. injection HvalX as <-.
    simpl in *. rewrite HlN in Hl1. injection Hl1 as <-.
    rewrite Hl2 in HlX. injection HlX as <-.
    rewrite set_val_twice, list_insert_insert_eq.
    rewrite <-Hval, set_val_same. by apply list_insert_id.
Qed.
End RoundTripCases.

(** After an edit that is recorded in the undo log, whether a single-cell
    edit (a diff record) or a bulk clearing (a full-snapshot record), an
    [undo] that returns followed at once by [redo] gives back the document
    as it was just after the edit: the same configuration and the same cell
    objects field by field, error flags included; [redo] returns, and the
    log and its cursor are as they were after the edit. *)
Theorem undo_redo_round_trip (s0 s1 s2 : State) :
  undo_inv s0 ->
  (∃ r c v row l cell0,
     at_ (cells (config s0)) r = Some row
     ∧ at_ row c = Some l
     ∧ store s0 !! l = Some cell0
     ∧ (v = "" ∨ is_Some (at_ (guesses (config s0)) (currGuess s0)))
     ∧ handle (fun render => cellValCallback render r c v) s0 = (s1, Some tt))
  ∨ (∃ i,
       (∀ l, l ∈ docLocs (config s0) -> is_Some (store s0 !! l))
       ∧ handle (fun render => clearGuess render i) s0 = (s1, Some tt)) ->
  handle undo s1 = (s2, Some tt) ->
  ∃ s3, handle redo s2 = (s3, Some tt)
        ∧ document s3 = document s1
        ∧ undoHistory s3 = undoHistory s1
        ∧ undoIndex s3 = undoIndex s1.
Proof.
  intros Hinv [(r & c & v & row & l & cell0 & Hrow & Hcell & Hl & Hstyle & Hedit)
              |(i & Hdoc & Hedit)] Hundo.
  - assert (∃ small,
              (if (if decide (v = "") then -1 else currGuess s0) =? -1
               then Some false
               else isSmall <$> at_ (guesses (config s0))
                                    (if decide (v = "") then -1 else currGuess s0))
              = Some small) as [small Hsmall].
    { destruct (decide (v = "")) as [->|Hv]; [by eexists|].
      destruct (_ =? -1); [by eexists|].
      destruct Hstyle as [?|[style ->]]; [done|by eexists]. }
    destruct (cellValCallback_run s0 r c v row l cell0 Hrow Hcell Hl small Hsmall)
      as (p1 & Hrun & Hstore & Hconfig & Hcurr & Hhist & Hindex).
    rewrite Hrun in Hedit.
    eapply (round_trip_diff s0 p1 s1 s2 Hinv Hedit Hconfig Hindex Hundo);
      [exact Hhist|exact Hrow|exact Hcell| | | |exact Hcurr].
    + rewrite Hstore. apply list_lookup_insert_eq. by eapply lookup_lt_Some.
    + done.
    + simpl. destruct (decide (v = "")); [by left|by right].
  - destruct (clearGuess_run s0 i Hdoc) as (p1 & P & Hrun & Hconfig & _ & Hhist & Hindex).
    rewrite Hrun in Hedit.
    by eapply (round_trip_full s0 p1 s1 s2 Hinv Hedit Hconfig Hindex Hundo).
Qed.

(** On the solved board, typing "3" after the "5" of the top left cell,
    then undo, then redo. *)
Lemma undo_redo_round_trip_witness :
  let s0 := board9 TDefault 1 solvedVals in
  let s1 := after (fun render => cellValCallback render 0 0 "53") s0 in
  let s2 := after undo s1 in
  ∃ s3, handle redo s2 = (s3, Some tt) ∧ document s3 = document s1.
Proof.
  intros s0 s1 s2.
  destruct (undo_redo_round_trip s0 s1 s2) as (s3 & Hredo & Hdoc & _).
  - unfold undo_inv. simpl. lia.
  - left. exists 0, 0, "53", (seq 0 9), 0%nat, (mkCell "5" 1 0 None false).
    split; [reflexivity|]. split; [reflexivity|]. split; [reflexivity|].
    split; [right; by eexists|]. vm_compute. reflexivity.
  - vm_compute. reflexivity.
  - exists s3. split; [exact Hredo|exact Hdoc].
Defined.

(** C2 at its failing input: the board of 2 x 2 cells that the Dimensions
    control makes, its type still Default, on which [validate] looks for
    nine columns and throws.  "5" is typed in the top left cell: the cell
    takes it and the edit is recorded in the undo log, with the cursor on
    it, before the [validate] of the edit throws.  [undo] writes the
    previous value back and its [validate] throws before the cursor is
    moved; [redo], which would move the cursor first, finds it on the last
    record and does nothing.  The cell is left empty: the document is not
    the one that the edit left. *)
Theorem undo_redo_loses_edit :
  let s0 := smallBoard in
  let s1 := after (fun render => cellValCallback render 0 0 "5") s0 in
  let s2 := after undo s1 in
  let s3 := after redo s2 in
  handle (fun render => cellValCallback render 0 0 "5") s0 = (s1, None)
  ∧ undoHistory s1 = [UndoDiff (0, 0) "" "5"]
  ∧ undoIndex s1 = 0
  ∧ (val <$> store s1 !! 0%nat) = Some "5"
  ∧ handle undo s1 = (s2, None)
  ∧ undoHistory s2 = undoHistory s1
  ∧ undoIndex s2 = 0
  ∧ (val <$> store s2 !! 0%nat) = Some ""
  ∧ handle redo s2 = (s3, Some tt)
  ∧ s3 = s2
  ∧ document s3 ≠ document s1.
Proof.
  intros s0 s1 s2 s3.
  repeat (split; [vm_compute; reflexivity|]).
  intros H.
  apply (f_equal (fun d => d.2 !! 0%nat ≫= (.!! 0%nat))) in H.
  vm_compute in H. discriminate.
Qed.

(** C5 at its failing input: on the empty board with guess style 1
    current, "5" is typed in the top left cell and the edit is undone.  The
    edit and the undo both return.  The cell had guess -1 before the edit;
    after the undo its value is empty again, but its guess is the 1 that the
    edit gave it: the document is not the one before the edit. *)
Theorem undo_leaves_guess_of_edit :
  let s0 := emptyBoard TDefault in
  let s1 := after (fun render => cellValCallback render 0 0 "5") s0 in
  let s2 := after undo s1 in
  handle (fun render => cellValCallback render 0 0 "5") s0 = (s1, Some tt)
  ∧ handle undo s1 = (s2, Some tt)
  ∧ store s0 !! 0%nat = Some (mkCell "" (-1) 0 None false)
  ∧ store s1 !! 0%nat = Some (mkCell "5" 1 0 None false)
  ∧ store s2 !! 0%nat = Some (mkCell "" 1 0 None false)
  ∧ document s2 ≠ document s0.
Proof.
  intros s0 s1 s2.
  split; [vm_compute; reflexivity|]. split; [vm_compute; reflexivity|].
  split; [vm_compute; reflexivity|]. split; [vm_compute; reflexivity|].
  split; [vm_compute; reflexivity|].
  intros H.
  apply (f_equal (fun d => d.2 !! 0%nat ≫= (.!! 0%nat))) in H.
  vm_compute in H. discriminate.
Qed.
